(** * CatQuery.ts: the reactive store ([CatStore]) and its view binder

    A shallow embedding of the reactive core of [src/CatQuery.ts]:
    the class [CatStore] (constructor with its [Proxy] write trap,
    [subscribe], [notify]) and the two [CatQuery] methods the binder is
    made of ([html] and [bind], with the private helpers [onDebugging],
    [forCreatedElementDo] and [forEachNodeDo]).

    JavaScript is effectful, so every operation is written in explicit
    state-passing style over a [World] (the browser: [localStorage], the
    children of the DOM elements, the console) and, for the methods of a
    store, over the [CatStore] object itself.  An operation returns an
    [Outcome]: a normal return value or a thrown exception.  A thrown
    exception does not roll anything back: the world and the store reached
    at the throwing point are returned next to it.

    The browser primitives and the client functions are not part of the
    repository; they are the fields of a [Host]. *)

From Stdlib Require Import Ascii.
From stdpp Require Import base option list gmap strings.

Set Default Proof Using "Type".

(** ** Values thrown by JavaScript code *)

Inductive Exn : Type := Error (message : string).

Inductive Outcome (A : Type) : Type :=
  | Ret (a : A)
  | Thrown (e : Exn).
Arguments Ret {A} a.
Arguments Thrown {A} e.

#[global] Instance Exn_eq_dec : EqDecision Exn.
Proof. solve_decision. Defined.

(** JavaScript truthiness of a [string | null] value: [null] and the empty
    string are falsy. *)
Definition truthy (s : option string) : bool :=
  match s with
  | Some t => bool_decide (t ≠ EmptyString)
  | None => false
  end.

(** ** The [CatQuery] object

    [createdElement] and the members of [selectedNodes] are DOM elements,
    named by their identity (a number). *)

Record CatQuery : Type := mkCatQuery {
  createdElement : option nat;
  selectedNodes : option (list nat);
  debugging : bool
}.

#[global] Instance CatQuery_eq_dec : EqDecision CatQuery.
Proof. solve_decision. Defined.

(** ** Listeners

    A [CatListener] is a function value.  The registry of a store is a
    JavaScript [Set], which compares functions by identity, so a listener
    is represented by its identity:
    - [UserFn f] is the client function number [f] of the host's function
      table;
    - [BindFn n this renderFn] is the arrow function allocated by the
      [n]-th call of [bind], which captures the receiver [this] and the
      render function (number [renderFn] of the host's table).  The
      receiver is taken as it is when [bind] is called: the two methods
      that change a [CatQuery] afterwards, [debug] and [create], are not
      part of this embedding. *)

Inductive Listener : Type :=
  | UserFn (f : nat)
  | BindFn (n : nat) (this : CatQuery) (renderFn : nat).

#[global] Instance Listener_eq_dec : EqDecision Listener.
Proof. solve_decision. Defined.

Section Model.

(** [Val] is the type of the values held by the fields of a state
    record, [Node] the type of DOM nodes. *)
Context {Val Node : Type}.

(** The state record [T extends object]: property name to value. *)
Local Abbreviation State := (gmap string Val).

(** What an observer of a store sees, in order: a snapshot written to
    [localStorage], and a listener called with a state. *)
Inductive Event : Type :=
  | Saved (key text : string)
  | Called (l : Listener) (s : State).

(** The browser.  [document] gives the child nodes of every element,
    each element on its own: a node is not linked to the element it may
    stand for, so a write to the children of an element does not show in
    the serialization of the elements around it.
    [mutations] records, in order, every write to the children of an
    element (what a [MutationObserver] would report); [trace] records the
    snapshots saved and the listeners called; [next_closure] numbers the
    arrow functions allocated by [bind]. *)
Record World : Type := mkWorld {
  localStorage : gmap string string;
  document : gmap nat (list Node);
  mutations : list (nat * list Node);
  console : list string;
  trace : list Event;
  next_closure : nat
}.

Definition set_localStorage (ls : gmap string string) (w : World) : World :=
  mkWorld ls (document w) (mutations w) (console w) (trace w) (next_closure w).
Definition set_children (element : nat) (nodes : list Node) (w : World) : World :=
  mkWorld (localStorage w) (<[element := nodes]> (document w))
          (mutations w ++ [(element, nodes)]) (console w) (trace w) (next_closure w).
Definition set_console (c : list string) (w : World) : World :=
  mkWorld (localStorage w) (document w) (mutations w) c (trace w) (next_closure w).
Definition set_trace (t : list Event) (w : World) : World :=
  mkWorld (localStorage w) (document w) (mutations w) (console w) t (next_closure w).
Definition set_next_closure (n : nat) (w : World) : World :=
  mkWorld (localStorage w) (document w) (mutations w) (console w) (trace w) n.

Definition log (e : Event) (w : World) : World :=
  set_trace (trace w ++ [e]) w.

(** The browser primitives and the client code.
    - [JSON_stringify] and [JSON_parse] may throw; [JSON_parse] also
      stands for the [new Proxy(baseState, ...)] that follows it in the
      constructor, which throws a [TypeError] when the parsed value is
      not an object.
    - [setItem_error ls key text] is the exception, if any, that
      [localStorage.setItem(key, text)] throws in storage [ls] (quota).
    - [listener_fn f s] tells whether the client listener [f] throws
      when called with state [s].  Client listeners are observed through
      the [Called] events of the trace; they do not write to the store,
      its registry, the storage or the DOM targets while they run.
    - [render_fn r s] is the markup the render function [r] returns for
      [s], or the exception it throws.
    - [parseFromString] is [new DOMParser().parseFromString(markup,
      'text/html').body.childNodes], [cloneNode] is [cloneNode(true)],
      [innerHTML] serializes the children of an element. *)
Record Host : Type := mkHost {
  JSON_stringify : State -> Exn + string;
  JSON_parse : string -> Exn + State;
  setItem_error : gmap string string -> string -> string -> option Exn;
  listener_fn : nat -> State -> option Exn;
  render_fn : nat -> State -> Exn + string;
  parseFromString : string -> list Node;
  cloneNode : Node -> Node;
  innerHTML : list Node -> string
}.

(** ** class CatStore

    [listeners] is the [Set] of listeners in insertion order, [state] the
    record behind the proxy, [storageKey] the persistence slot. *)

Record CatStore : Type := mkCatStore {
  listeners : list Listener;
  state : State;
  storageKey : option string
}.

Definition set_listeners (ls : list Listener) (st : CatStore) : CatStore :=
  mkCatStore ls (state st) (storageKey st).
Definition set_state (s : State) (st : CatStore) : CatStore :=
  mkCatStore (listeners st) s (storageKey st).

(** [Set.prototype.add]: insertion order, an element already present
    keeps its place. *)
Definition Set_add (l : Listener) (ls : list Listener) : list Listener :=
  if decide (l ∈ ls) then ls else ls ++ [l].

(** [Set.prototype.delete]: the answer tells whether the element was
    present. *)
Definition Set_delete (l : Listener) (ls : list Listener) : bool * list Listener :=
  (bool_decide (l ∈ ls), filter (λ x, x ≠ l) ls).

Variable host : Host.

(** *** CatQuery: the helpers and [html] *)

Definition onDebugging (this : CatQuery) (message : string) (w : World) : World :=
  if debugging this then set_console (console w ++ [message]) w else w.

Definition forCreatedElementDo {A : Type} (this : CatQuery)
    (callback : nat -> A * World -> A * World) (debugMessage : string)
    (aw : A * World) : A * World :=
  match createdElement this with
  | Some element => callback element (aw.1, onDebugging this debugMessage aw.2)
  | None => aw
  end.

Definition forEachNodeDo {A : Type} (this : CatQuery)
    (callback : nat -> A * World -> A * World) (debugMessage : string)
    (aw : A * World) : A * World :=
  match selectedNodes this with
  | Some nodes =>
      foldl (λ acc node, callback node (acc.1, onDebugging this debugMessage acc.2))
            aw nodes
  | None => aw
  end.

(** The child nodes of an element. *)
Definition childNodes (w : World) (element : nat) : list Node :=
  default [] (document w !! element).

Definition replaceChildren (element : nat) (nodes : list Node) (w : World) : World :=
  set_children element nodes w.

Definition appendChild (element : nat) (node : Node) (w : World) : World :=
  set_children element (childNodes w element ++ [node]) w.

(** The closure [updateAction] of [html]. *)
Definition updateAction (htmlText : string) (adding : bool) (newNodes : list Node)
    (element : nat) (w : World) : World :=
  if adding then
    foldl (λ w' node, appendChild element (cloneNode host node) w') w newNodes
  else if bool_decide (innerHTML host (childNodes w element) ≠ htmlText) then
    replaceChildren element (cloneNode host <$> newNodes) w
  else w.

(** What [html] returns: the serialized contents (getter) or the
    receiver (setter). *)
Inductive HtmlResult : Type :=
  | Htmls (htmls : list string)
  | This (this : CatQuery).

Definition html (this : CatQuery) (htmlText : option string) (adding : bool)
    (w : World) : HtmlResult * World :=
  if truthy htmlText then
    let text := default EmptyString htmlText in
    let newNodes := parseFromString host text in
    let act := λ element (aw : unit * World),
                 (tt, updateAction text adding newNodes element aw.2) in
    let aw1 := forCreatedElementDo this act "Setting HTML to created element." (tt, w) in
    let aw2 := forEachNodeDo this act "Setting HTML to selected nodes." aw1 in
    (This this, aw2.2)
  else
    let push := λ element (aw : list string * World),
                  (aw.1 ++ [innerHTML host (childNodes aw.2 element)], aw.2) in
    let aw1 := forCreatedElementDo this push "Getting created element html" ([], w) in
    let aw2 := forEachNodeDo this push "Getting selected nodes html." aw1 in
    (Htmls aw2.1, aw2.2).

(** *** Calling a listener

    The call is recorded in the trace.  A client function returns or
    throws as the host says; the arrow function of [bind] runs
    [renderFn(state)] and then [this.html(newHTML)]. *)
Definition call (l : Listener) (s : State) (w : World) : Outcome unit * World :=
  let w1 := log (Called l s) w in
  match l with
  | UserFn f =>
      match listener_fn host f s with
      | Some e => (Thrown e, w1)
      | None => (Ret tt, w1)
      end
  | BindFn _ this renderFn =>
      match render_fn host renderFn s with
      | inl e => (Thrown e, w1)
      | inr newHTML => (Ret tt, (html this (Some newHTML) false w1).2)
      end
  end.

(** [Set.prototype.forEach] with the callback [l => l(this.state)]: the
    first exception ends the iteration. *)
Fixpoint forEach (ls : list Listener) (s : State) (w : World) : Outcome unit * World :=
  match ls with
  | [] => (Ret tt, w)
  | l :: ls' =>
      match call l s w with
      | (Ret _, w1) => forEach ls' s w1
      | (Thrown e, w1) => (Thrown e, w1)
      end
  end.

Definition notify (this : CatStore) (w : World) : Outcome unit * World :=
  forEach (listeners this) (state this) w.

(** *** The constructor *)
Definition new_CatStore (initialState : State) (key : option string) (w : World)
    : Outcome CatStore :=
  let savedState :=
    if truthy key then localStorage w !! default EmptyString key else None in
  if truthy savedState then
    match JSON_parse host (default EmptyString savedState) with
    | inl e => Thrown e
    | inr baseState => Ret (mkCatStore [] baseState key)
    end
  else Ret (mkCatStore [] initialState key).

(** [localStorage.setItem(key, text)] *)
Definition setItem (key text : string) (w : World) : Outcome unit * World :=
  match setItem_error host (localStorage w) key text with
  | Some e => (Thrown e, w)
  | None =>
      (Ret tt, log (Saved key text) (set_localStorage (<[key := text]> (localStorage w)) w))
  end.

(** The statement [if (this.storageKey) { localStorage.setItem(
    this.storageKey, JSON.stringify(target)); }] of the trap. *)
Definition persist (this : CatStore) (w : World) : Outcome unit * World :=
  if truthy (storageKey this) then
    match JSON_stringify host (state this) with
    | inl e => (Thrown e, w)
    | inr text => setItem (default EmptyString (storageKey this)) text w
    end
  else (Ret tt, w).

(** *** The [set] trap of the proxy: a field write [state[key] = value] *)
Definition set (this : CatStore) (key : string) (value : Val) (w : World)
    : Outcome bool * CatStore * World :=
  let this1 := set_state (<[key := value]> (state this)) this in
  match persist this1 w with
  | (Thrown e, w1) => (Thrown e, this1, w1)
  | (Ret _, w1) =>
      match notify this1 w1 with
      | (Thrown e, w2) => (Thrown e, this1, w2)
      | (Ret _, w2) => (Ret true, this1, w2)
      end
  end.

(** *** subscribe, and the handle it returns *)

(** The arrow function [() => this.listeners.delete(listener)]. *)
Record Unsubscribe : Type := mkUnsubscribe { captured : Listener }.

Definition subscribe (this : CatStore) (listener : Listener) (w : World)
    : Outcome Unsubscribe * CatStore * World :=
  let this1 := set_listeners (Set_add listener (listeners this)) this in
  match call listener (state this1) w with
  | (Thrown e, w1) => (Thrown e, this1, w1)
  | (Ret _, w1) => (Ret (mkUnsubscribe listener), this1, w1)
  end.

(** Invoking the handle; [this] is the store the handle was made on, as
    it is when the handle is invoked. *)
Definition unsubscribe (h : Unsubscribe) (this : CatStore) : Outcome bool * CatStore :=
  let r := Set_delete (captured h) (listeners this) in
  (Ret r.1, set_listeners r.2 this).

(** *** CatQuery.bind *)
Definition bind (this : CatQuery) (store : CatStore) (renderFn : nat) (w : World)
    : Outcome CatQuery * CatStore * World :=
  let listener := BindFn (next_closure w) this renderFn in
  let w0 := set_next_closure (S (next_closure w)) w in
  match subscribe store listener w0 with
  | (Thrown e, store1, w1) => (Thrown e, store1, w1)
  | (Ret _, store1, w1) => (Ret this, store1, w1)
  end.

(** ** Vocabulary of the statements *)

(** The elements a [CatQuery] acts on: the created element, then the
    selected nodes. *)
Definition targets (this : CatQuery) : list nat :=
  option_list (createdElement this) ++ default [] (selectedNodes this).

(** The exception a listener throws when called with [s], if any. *)
Definition throws (l : Listener) (s : State) : option Exn :=
  match l with
  | UserFn f => listener_fn host f s
  | BindFn _ _ renderFn =>
      match render_fn host renderFn s with
      | inl e => Some e
      | inr _ => None
      end
  end.

(** The listeners a notification pass reaches: those up to and including
    the first one that throws. *)
Fixpoint delivered (ls : list Listener) (s : State) : list Listener :=
  match ls with
  | [] => []
  | l :: ls' =>
      l :: match throws l s with
           | Some _ => []
           | None => delivered ls' s
           end
  end.

(** The steps of one field write as the specification lists them, after
    the value is applied to the record: the snapshot of the whole record
    saved under the slot if there is one, then one call per listener in
    registry order, each with the whole record. *)
Definition snapshot (this : CatStore) (s : State) : list Event :=
  if truthy (storageKey this) then
    match JSON_stringify host s with
    | inl _ => []
    | inr text => [Saved (default EmptyString (storageKey this)) text]
    end
  else [].

Definition write_steps (this : CatStore) (key : string) (value : Val) : list Event :=
  snapshot this (<[key := value]> (state this)) ++
  ((λ l, Called l (<[key := value]> (state this))) <$> listeners this).

(** [html] writes to the children of elements and to the console only:
    it leaves the storage, the trace and the closure counter as they
    are. *)
Definition same_store_side (w w' : World) : Prop :=
  localStorage w' = localStorage w ∧ trace w' = trace w ∧
  next_closure w' = next_closure w.




(** The store once the value is applied to the record. *)
Definition written (this : CatStore) (key : string) (value : Val) : CatStore :=
  set_state (<[key := value]> (state this)) this.

(** The calls of listener [l] among some events. *)
Definition calls_of (l : Listener) (evs : list Event) : list State :=
  omap (λ ev, match ev with
              | Called l' s => if decide (l' = l) then Some s else None
              | Saved _ _ => None
              end) evs.

End Model.

Arguments Event : clear implicits.
Arguments World : clear implicits.
Arguments Host : clear implicits.
Arguments CatStore : clear implicits.
Arguments HtmlResult : clear implicits.
Arguments updateAction : simpl never.

(** ** A concrete host: a counter shown on a text-only page

    The examples run on a small browser.  States are records of integer
    fields.  Markup without tags or entities parses to a single text node
    (none for the empty string); [innerHTML] escapes the text of each node
    as browsers do; the JSON codec knows the records [{count: n}] for the
    first few [n]; [setItem] throws when the text is longer than the
    quota; the client listener number 2 always throws, the others never
    do; the render function 0 spells the counter, 1 is constant, the
    others throw. *)

Module Demo.

Definition counter (n : Z) : gmap string Z := {[ "count" := n ]}.

Definition stringify (s : gmap string Z) : Exn + string :=
  if decide (s = counter 0) then inr "{count:0}"
  else if decide (s = counter 1) then inr "{count:1}"
  else if decide (s = counter 2) then inr "{count:2}"
  else inl (Error "TypeError").

Definition parse (text : string) : Exn + gmap string Z :=
  if decide (text = "{count:0}") then inr (counter 0)
  else if decide (text = "{count:1}") then inr (counter 1)
  else if decide (text = "{count:2}") then inr (counter 2)
  else inl (Error "SyntaxError").

Definition label (s : gmap string Z) : string :=
  match s !! "count" with
  | Some 0%Z => "zero"
  | Some 1%Z => "one"
  | Some _ => "many"
  | None => EmptyString
  end.

Definition quota_exceeded : Exn := Error "QuotaExceededError".

Fixpoint escape (text : string) : string :=
  match text with
  | EmptyString => EmptyString
  | String c rest =>
      (if Ascii.eqb c ">"%char then "&gt;"
       else if Ascii.eqb c "<"%char then "&lt;"
       else if Ascii.eqb c "&"%char then "&amp;"
       else String c EmptyString) +:+ escape rest
  end.

Definition host (quota : nat) : Host Z string := {|
  JSON_stringify := stringify;
  JSON_parse := parse;
  setItem_error := λ _ _ text,
    if decide (String.length text ≤ quota) then None
    else Some quota_exceeded;
  listener_fn := λ f _, if decide (f = 2) then Some (Error "listener 2") else None;
  render_fn := λ r s,
    match r with
    | 0 => inr (label s)
    | 1 => inr "meow"
    | _ => inl (Error "render")
    end;
  parseFromString := λ markup, if decide (markup = EmptyString) then [] else [markup];
  cloneNode := λ node, node;
  innerHTML := λ nodes, foldr (λ node acc, escape node +:+ acc) EmptyString nodes
|}.

(** A fresh browser, and one whose element 7 (the page's [#counter])
    shows some text. *)
Definition w0 : World Z string := mkWorld ∅ ∅ [] [] [] 0.
Definition page (text : string) : World Z string :=
  mkWorld ∅ {[ 7 := [text] ]} [] [] [] 0.

(** [cq("#counter")] *)
Definition q7 : CatQuery := mkCatQuery None (Some [7]) false.

(** Stores on the counter: two quiet listeners and the slot ["k"]; one
    listener and the slot ["k"], with the browser as [subscribe] leaves it;
    a throwing listener between two quiet ones; no listener; and the store
    and the browser after [cq("#counter").bind(store, render0)]. *)
Definition store_k : CatStore Z :=
  mkCatStore [UserFn 0; UserFn 1] (counter 0) (Some "k").
Definition store_one : CatStore Z := mkCatStore [UserFn 0] (counter 0) (Some "k").
Definition w_one : World Z string :=
  mkWorld ∅ ∅ [] [] [Called (UserFn 0) (counter 0)] 0.
Definition store_bad : CatStore Z :=
  mkCatStore [UserFn 0; UserFn 2; UserFn 1] (counter 0) None.
Definition store_empty : CatStore Z := mkCatStore [] (counter 0) None.
Definition store_bound : CatStore Z := mkCatStore [BindFn 0 q7 0] (counter 0) None.
Definition w_bound : World Z string :=
  mkWorld ∅ {[ 7 := ["zero"] ]} [(7, ["zero"])] []
          [Called (BindFn 0 q7 0) (counter 0)] 1.

End Demo.

(** * More of the file: the other methods on the children of elements,
      the constructor, and the fetch helper [get]

    The host primitives these methods call are parameters as before:
    [querySelectorAll] (which throws on a selector it cannot parse),
    the fragment parser behind the [innerHTML] setter, the [Text] node
    constructor behind the [textContent] setter, the text content of an
    element (given its children) and of a node, and [fetch]. *)

Section Rest.

Context {Val Node : Type}.

Local Abbreviation World' := (World Val Node).

(** [debug()] flips the flag and returns the receiver. *)
Definition debug (this : CatQuery) : CatQuery :=
  mkCatQuery (createdElement this) (selectedNodes this) (negb (debugging this)).

(** The constructor, and the exported [cq]. *)
Definition new_CatQuery (querySelectorAll : World' -> string -> Exn + list nat)
    (selector : option string) (w : World') : Outcome CatQuery :=
  if negb (truthy selector) then Ret (mkCatQuery None None false)
  else
    match querySelectorAll w (default EmptyString selector) with
    | inl e => Thrown e
    | inr nodes => Ret (mkCatQuery None (Some nodes) false)
    end.

Definition cq (querySelectorAll : World' -> string -> Exn + list nat)
    (need : option string) (w : World') : Outcome CatQuery :=
  new_CatQuery querySelectorAll need w.

(** [empty()] *)
Definition empty (this : CatQuery) (w : World') : CatQuery * World' :=
  let act := λ element (aw : unit * World'), (tt, replaceChildren element [] aw.2) in
  let aw1 := forCreatedElementDo this act "Empty created element." (tt, w) in
  let aw2 := forEachNodeDo this act "Empty selected nodes." aw1 in
  (this, aw2.2).

(** [contents()] *)
Definition contents (this : CatQuery) (w : World') : list Node * World' :=
  let push := λ element (aw : list Node * World'),
                (aw.1 ++ childNodes aw.2 element, aw.2) in
  let aw1 := forCreatedElementDo this push "Getting created element contents." ([], w) in
  forEachNodeDo this push "Getting selected nodes contents." aw1.

(** The [textContent] setter of an element: its children become one
    [Text] node, or none for the empty string. *)
Definition set_textContent (createTextNode : string -> Node) (element : nat)
    (data : string) (w : World') : World' :=
  set_children element
    (if decide (data = EmptyString) then [] else [createTextNode data]) w.

(** What [text] returns: the texts (getter) or the receiver (setter). *)
Inductive TextResult : Type :=
  | Texts (allText : list string)
  | TextThis (this : CatQuery).

Definition text (createTextNode : string -> Node) (elementText : list Node -> string)
    (this : CatQuery) (newText : option string) (w : World') : TextResult * World' :=
  if truthy newText then
    let data := default EmptyString newText in
    let act := λ element (aw : unit * World'),
                 (tt, set_textContent createTextNode element data aw.2) in
    let aw1 := forCreatedElementDo this act "Setting text to created element." (tt, w) in
    let aw2 := forEachNodeDo this act "Setting text to selected nodes." aw1 in
    (TextThis this, aw2.2)
  else
    let push := λ element (aw : list string * World'),
                  (aw.1 ++ [elementText (childNodes aw.2 element)], aw.2) in
    let aw1 := forEachNodeDo this push "Getting selected nodes text." ([], w) in
    (Texts aw1.1, aw1.2).

(** [String.prototype.includes] *)
Fixpoint includes (s search : string) : bool :=
  if String.prefix search s then true
  else match s with
       | EmptyString => false
       | String _ rest => includes rest search
       end.

(** [containsText(textContent)].  The callback of [filter] assigns
    [contains] at every child node; [nodeText] is the [textContent] of a
    node ([None] for [null], which makes the assigned value
    [undefined]). *)
Definition containsText (nodeText : Node -> option string) (this : CatQuery)
    (textContent : string) (w : World') : option bool * World' :=
  let visit := λ element (aw : option bool * World'),
    (foldl (λ (contains : option bool) node,
              (λ t, includes t textContent) <$> nodeText node)
           aw.1 (childNodes aw.2 element), aw.2) in
  let aw1 := forCreatedElementDo this visit "Cheking if created element contains text."
               (Some false, w) in
  forEachNodeDo this visit "Cheking if selected nodes contains text." aw1.

(** [load(url)]: [fetch_text url] is the text of the response, or the
    rejection of [fetch] or of [response.text()]; the [innerHTML] setter
    replaces the children by the nodes of the parsed fragment. *)
Definition set_innerHTML (parseFragment : string -> list Node) (element : nat)
    (html : string) (w : World') : World' :=
  set_children element (parseFragment html) w.

Definition load (fetch_text : string -> Exn + string)
    (parseFragment : string -> list Node) (this : CatQuery) (url : string) (w : World')
    : Outcome CatQuery * World' :=
  match fetch_text url with
  | inl e => (Thrown e, w)
  | inr html =>
      let act := λ element (aw : unit * World'),
                   (tt, set_innerHTML parseFragment element html aw.2) in
      let aw1 := forCreatedElementDo this act "Loading html to created element." (tt, w) in
      let aw2 := forEachNodeDo this act "Loading html to selected nodes." aw1 in
      (Ret this, aw2.2)
  end.

(** ** Vocabulary *)

(** The visits of a method that runs one action on the created element
    and then on the selected nodes, each with its debug message. *)
Definition visits (createdMessage selectedMessage : string) (this : CatQuery)
    : list (string * nat) :=
  ((λ el, (createdMessage, el)) <$> option_list (createdElement this)) ++
  ((λ el, (selectedMessage, el)) <$> default [] (selectedNodes this)).

Definition run (f : nat -> World' -> World') (this : CatQuery)
    (steps : list (string * nat)) (w : World') : World' :=
  foldl (λ w' p, f p.2 (onDebugging this p.1 w')) w steps.

(** Two browsers that differ by the console at most. *)
Definition same_but_console (w w' : World') : Prop :=
  localStorage w' = localStorage w ∧ document w' = document w ∧
  mutations w' = mutations w ∧ trace w' = trace w ∧
  next_closure w' = next_closure w.

(** The arrow functions of [bind] in a registry are older than [n]. *)
Definition closures_below (n : nat) (ls : list Listener) : Prop :=
  ∀ m q r, BindFn m q r ∈ ls → m < n.

Variable host : Host Val Node.

(** A client that performs field writes one after the other; an
    exception ends it. *)
Fixpoint assign_all (this : CatStore Val) (writes : list (string * Val)) (w : World')
    : Outcome bool * CatStore Val * World' :=
  match writes with
  | [] => (Ret true, this, w)
  | (key, value) :: rest =>
      match set host this key value w with
      | (Ret _, this1, w1) => assign_all this1 rest w1
      | (Thrown e, this1, w1) => (Thrown e, this1, w1)
      end
  end.

(** The stores a program can hold: made by the constructor, then passed
    through the operations. *)
Inductive reachable : CatStore Val -> Prop :=
  | reachable_new initial key w this :
      new_CatStore host initial key w = Ret this → reachable this
  | reachable_subscribe this l w :
      reachable this → reachable (subscribe host this l w).1.2
  | reachable_unsubscribe h this :
      reachable this → reachable (unsubscribe h this).2
  | reachable_set this key value w :
      reachable this → reachable (set host this key value w).1.2
  | reachable_bind q this r w :
      reachable this → reachable (bind host q this r w).1.2.

Definition is_Saved (ev : Event Val) : Prop :=
  match ev with Saved _ _ => True | Called _ _ => False end.

#[global] Instance is_Saved_dec ev : Decision (is_Saved ev).
Proof. destruct ev; simpl; apply _. Defined.

End Rest.

(** ** [get(url, success, error)]

    [fetch url] is the response the promise of [fetch] is fulfilled with,
    or its rejection; [success r] and [error] tell whether the callbacks
    throw.  The calls of the callbacks are returned in order, next to
    what the promise of [get] settles with. *)

Section Get.

Context {Response : Type}.

Inductive CallbackCall : Type :=
  | ErrorCall
  | SuccessCall (resp : Response).

Definition get (fetch : string -> Exn + Response) (ok : Response -> bool)
    (this : CatQuery) (url : string) (success : Response -> option Exn)
    (error : option Exn) : Outcome CatQuery * list CallbackCall :=
  match fetch url with
  | inl e => (Thrown e, [])
  | inr response =>
      let after_check :=
        if negb (ok response) then
          match error with
          | Some e => (Thrown e, [ErrorCall])
          | None => (Ret tt, [ErrorCall])
          end
        else (Ret tt, []) in
      match after_check with
      | (Thrown e, calls) => (Thrown e, calls)
      | (Ret _, calls) =>
          match success response with
          | Some e => (Thrown e, calls ++ [SuccessCall response])
          | None => (Ret this, calls ++ [SuccessCall response])
          end
      end
  end.

End Get.

Arguments CallbackCall : clear implicits.

(** ** [initWebUI(callback)]

    The script elements of the document are listed with their [src]
    attribute and their [onload] handler, if one was set; the handler set
    by [initWebUI] captures the callback it was given, if any.  The
    promise [initWebUI] returns is fulfilled with the receiver, or pending
    on the [load] event of a script. *)

Section WebUI.

Context {Val Node : Type}.

Record Script : Type := mkScript {
  src : string;
  onload : option (option nat)
}.

Inductive Promise : Type :=
  | Fulfilled (this : CatQuery)
  | Pending (script : nat).

(** [document.querySelector('script[src="webui.js"]')] is not [null]. *)
Definition has_webui (scripts : list Script) : bool :=
  bool_decide (Exists (λ sc, src sc = "webui.js") scripts).

Definition initWebUI (this : CatQuery) (callback : option nat) (scripts : list Script)
    (w : World Val Node) : Promise * list Script * World Val Node :=
  if has_webui scripts then
    (Fulfilled this, scripts, onDebugging this "WebUI script already exists." w)
  else
    (Pending (length scripts), scripts ++ [mkScript "webui.js" (Some callback)], w).

End WebUI.

(** ** More of the counter page *)

Module DemoMore.

(** Text nodes are their text; the text of an element is the text of its
    children, one after the other. *)
Definition createTextNode (data : string) : string := data.
Definition elementText (nodes : list string) : string :=
  foldr (λ node acc, node +:+ acc) EmptyString nodes.
Definition nodeText (node : string) : option string := Some node.

(** Browsers whose slot ["k"] holds a snapshot, and a text that is no
    snapshot; a page whose [#counter] has two text nodes. *)
Definition w_saved : World Z string :=
  mkWorld {[ "k" := "{count:0}" ]} ∅ [] [] [] 0.
Definition w_malformed : World Z string :=
  mkWorld {[ "k" := "oops" ]} ∅ [] [] [] 0.
Definition two_nodes : World Z string :=
  mkWorld ∅ {[ 7 := ["cat"; "dog"] ]} [] [] [] 0.

Definition writes : list (string * Z) := [("count", 1%Z); ("count", 2%Z)].

(** [cq()] *)
Definition q_none : CatQuery := mkCatQuery None None false.

End DemoMore.

(** * Properties *)

Section Properties.

Context {Val Node : Type} (host : Host Val Node).

Implicit Types (w : World Val Node) (this : CatStore Val) (l : Listener).
Implicit Types (s : gmap string Val) (q : CatQuery) (ls : list Listener).

(** ** The DOM side leaves the store side alone *)

Lemma same_store_side_refl w : same_store_side w w.
Proof. by repeat split. Qed.

Lemma same_store_side_trans w1 w2 w3 :
  same_store_side w1 w2 → same_store_side w2 w3 → same_store_side w1 w3.
Proof.
  intros (? & ? & ?) (? & ? & ?). unfold same_store_side. repeat split; congruence.
Qed.

Lemma onDebugging_store_side q msg w : same_store_side w (onDebugging q msg w).
Proof. unfold onDebugging. destruct (debugging q); by repeat split. Qed.

Lemma updateAction_store_side text adding nodes el w :
  same_store_side w (updateAction host text adding nodes el w).
Proof.
  unfold updateAction. destruct adding.
  - revert w. induction nodes as [|n nodes IH]; intros w; simpl.
    + apply same_store_side_refl.
    + eapply same_store_side_trans; [|apply IH]. by repeat split.
  - case_bool_decide; by repeat split.
Qed.

Lemma foldl_store_side {A} (f : nat → A * World Val Node → A * World Val Node) q msg
    (els : list nat) (aw : A * World Val Node) :
  (∀ el aw', same_store_side aw'.2 (f el aw').2) →
  same_store_side aw.2
    (foldl (λ acc node, f node (acc.1, onDebugging q msg acc.2)) aw els).2.
Proof.
  intros Hf. revert aw. induction els as [|el els IH]; intros aw; simpl.
  - apply same_store_side_refl.
  - eapply same_store_side_trans; [|apply IH].
    eapply same_store_side_trans; [apply (onDebugging_store_side q msg)|].
    apply (Hf el (aw.1, onDebugging q msg aw.2)).
Qed.

Lemma forCreatedElementDo_store_side {A}
    (f : nat → A * World Val Node → A * World Val Node) q msg (aw : A * World Val Node) :
  (∀ el aw', same_store_side aw'.2 (f el aw').2) →
  same_store_side aw.2 (forCreatedElementDo q f msg aw).2.
Proof.
  intros Hf. unfold forCreatedElementDo. destruct (createdElement q) as [el|].
  - eapply same_store_side_trans; [apply (onDebugging_store_side q msg)|].
    apply (Hf el (aw.1, onDebugging q msg aw.2)).
  - apply same_store_side_refl.
Qed.

Lemma forEachNodeDo_store_side {A}
    (f : nat → A * World Val Node → A * World Val Node) q msg (aw : A * World Val Node) :
  (∀ el aw', same_store_side aw'.2 (f el aw').2) →
  same_store_side aw.2 (forEachNodeDo q f msg aw).2.
Proof.
  intros Hf. unfold forEachNodeDo. destruct (selectedNodes q) as [els|].
  - by apply foldl_store_side.
  - apply same_store_side_refl.
Qed.

Lemma html_store_side q text adding w :
  same_store_side w (html host q text adding w).2.
Proof.
  unfold html. destruct (truthy text); simpl.
  - eapply same_store_side_trans;
      [|apply forEachNodeDo_store_side; intros el aw'; apply updateAction_store_side].
    apply (forCreatedElementDo_store_side _ q _ (tt, w)).
    intros el aw'. apply updateAction_store_side.
  - eapply same_store_side_trans;
      [|apply forEachNodeDo_store_side; intros el aw'; apply same_store_side_refl].
    apply (forCreatedElementDo_store_side _ q _ ([], w)).
    intros el aw'. apply same_store_side_refl.
Qed.

(** ** Calling listeners *)

Lemma call_outcome l s w :
  (call host l s w).1 =
    match throws host l s with Some e => Thrown e | None => Ret tt end.
Proof.
  destruct l as [f|n q r]; simpl.
  - by destruct (listener_fn host f s).
  - by destruct (render_fn host r s).
Qed.

Lemma call_trace l s w : trace (call host l s w).2 = trace w ++ [Called l s].
Proof.
  destruct l as [f|n q r]; simpl.
  - by destruct (listener_fn host f s).
  - destruct (render_fn host r s) as [e|markup]; [done|]. simpl.
    by destruct (html_store_side q (Some markup) false (log (Called (BindFn n q r) s) w))
      as (_ & -> & _).
Qed.

Lemma call_localStorage l s w : localStorage (call host l s w).2 = localStorage w.
Proof.
  destruct l as [f|n q r]; simpl.
  - by destruct (listener_fn host f s).
  - destruct (render_fn host r s) as [e|markup]; [done|]. simpl.
    by destruct (html_store_side q (Some markup) false (log (Called (BindFn n q r) s) w))
      as (-> & _ & _).
Qed.

Lemma forEach_outcome ls s w :
  (forEach host ls s w).1 =
    match list_find (λ l, is_Some (throws host l s)) ls with
    | Some (_, l) => match throws host l s with Some e => Thrown e | None => Ret tt end
    | None => Ret tt
    end.
Proof.
  revert w. induction ls as [|l ls IH]; intros w; [done|]. simpl.
  pose proof (call_outcome l s w) as Hc.
  destruct (call host l s w) as [[[]|e] w1]; simpl in Hc.
  - destruct (throws host l s) as [e|] eqn:Ht; [done|].
    rewrite decide_False by (by intros [? ?]).
    rewrite IH. by destruct (list_find _ ls) as [[? ?]|].
  - destruct (throws host l s) as [e'|] eqn:Ht; [|done].
    rewrite decide_True by eauto. simpl. by rewrite Ht.
Qed.

Lemma forEach_trace ls s w :
  trace (forEach host ls s w).2 = trace w ++ ((λ l, Called l s) <$> delivered host ls s).
Proof.
  revert w. induction ls as [|l ls IH]; intros w; simpl.
  - by rewrite app_nil_r.
  - pose proof (call_outcome l s w) as Hc. pose proof (call_trace l s w) as Htr.
    destruct (call host l s w) as [[[]|e] w1]; simpl in Hc, Htr.
    + destruct (throws host l s); [done|]. rewrite IH, Htr. by rewrite <-app_assoc.
    + destruct (throws host l s); [|done]. simpl. by rewrite Htr.
Qed.

Lemma forEach_localStorage ls s w :
  localStorage (forEach host ls s w).2 = localStorage w.
Proof.
  revert w. induction ls as [|l ls IH]; intros w; simpl; [done|].
  pose proof (call_localStorage l s w) as Hc.
  destruct (call host l s w) as [[[]|e] w1]; simpl in Hc; [|done].
  by rewrite IH.
Qed.

Lemma delivered_prefix ls s : delivered host ls s `prefix_of` ls.
Proof.
  induction ls as [|l ls IH]; simpl; [done|].
  destruct (throws host l s).
  - by apply prefix_cons, prefix_nil.
  - by apply prefix_cons.
Qed.

Lemma delivered_all ls s :
  Forall (λ l, throws host l s = None) ls → delivered host ls s = ls.
Proof.
  induction 1 as [|l ls Hl _ IH]; simpl; [done|]. by rewrite Hl, IH.
Qed.

Lemma delivered_until ls1 l ls2 s e :
  Forall (λ x, throws host x s = None) ls1 → throws host l s = Some e →
  delivered host (ls1 ++ l :: ls2) s = ls1 ++ [l].
Proof.
  intros H1 Hl. induction H1 as [|x ls1 Hx _ IH]; simpl.
  - by rewrite Hl.
  - by rewrite Hx, IH.
Qed.

Lemma forEach_returns ls s w :
  Forall (λ l, throws host l s = None) ls → (forEach host ls s w).1 = Ret tt.
Proof.
  intros Hall. revert w. induction Hall as [|l ls Hl _ IH]; intros w; simpl; [done|].
  pose proof (call_outcome l s w) as Hc. rewrite Hl in Hc.
  destruct (call host l s w) as [[[]|e] w1]; simpl in Hc; [apply IH|done].
Qed.

Lemma forEach_throws ls1 l ls2 s e w :
  Forall (λ x, throws host x s = None) ls1 → throws host l s = Some e →
  (forEach host (ls1 ++ l :: ls2) s w).1 = Thrown e.
Proof.
  intros H1 Hl. revert w. induction H1 as [|x ls1 Hx _ IH]; intros w; simpl.
  - pose proof (call_outcome l s w) as Hc. rewrite Hl in Hc.
    by destruct (call host l s w) as [[[]|e'] w1]; simpl in Hc; simplify_eq.
  - pose proof (call_outcome x s w) as Hc. rewrite Hx in Hc.
    destruct (call host x s w) as [[[]|e'] w1]; simpl in Hc; [apply IH|done].
Qed.

(** ** The write trap *)

Lemma persist_throws this w e :
  (persist host this w).1 = Thrown e → (persist host this w).2 = w.
Proof.
  unfold persist, setItem. destruct (truthy (storageKey this)); [|done].
  destruct (JSON_stringify host (state this)) as [e'|text]; [done|].
  by destruct (setItem_error host (localStorage w) _ text).
Qed.

Lemma persist_throws_iff this w e :
  (persist host this w).1 = Thrown e ↔
  truthy (storageKey this) = true ∧
  (JSON_stringify host (state this) = inl e ∨
   ∃ text, JSON_stringify host (state this) = inr text ∧
     setItem_error host (localStorage w) (default EmptyString (storageKey this)) text
       = Some e).
Proof.
  unfold persist, setItem. destruct (truthy (storageKey this)).
  - destruct (JSON_stringify host (state this)) as [e'|text]; simpl.
    + split.
      * intros [= ->]. split; [done|by left].
      * intros [_ [[= ->]|(text & [=] & _)]]. done.
    + destruct (setItem_error host (localStorage w) _ text) as [e'|] eqn:Hs; simpl.
      * split.
        -- intros [= ->]. split; [done|]. right. by exists text.
        -- intros [_ [[=]|(text' & [= <-] & Hs')]]. congruence.
      * split; [done|]. intros [_ [[=]|(text' & [= <-] & Hs')]]. congruence.
  - split; [done|]. by intros [[=] _].
Qed.

Lemma persist_returns this w :
  (persist host this w).1 = Ret tt →
  trace (persist host this w).2 = trace w ++ snapshot host this (state this) ∧
  localStorage (persist host this w).2 =
    if truthy (storageKey this) then
      match JSON_stringify host (state this) with
      | inr text => <[default EmptyString (storageKey this) := text]> (localStorage w)
      | inl _ => localStorage w
      end
    else localStorage w.
Proof.
  unfold persist, snapshot, setItem. destruct (truthy (storageKey this)).
  - destruct (JSON_stringify host (state this)) as [e'|text]; [done|].
    by destruct (setItem_error host (localStorage w) _ text).
  - by rewrite app_nil_r.
Qed.

Lemma set_store this key value w :
  (set host this key value w).1.2 = written this key value.
Proof.
  unfold set. fold (written this key value).
  destruct (persist host _ w) as [[[]|e] w1]; [|done].
  by destruct (notify host _ w1) as [[[]|e] w2].
Qed.

Lemma set_trace_prefix this key value w :
  ∃ evs, trace (set host this key value w).2 = trace w ++ evs ∧
         evs `prefix_of` write_steps host this key value.
Proof.
  unfold set. fold (written this key value).
  pose proof (persist_throws (written this key value) w) as Ht.
  pose proof (persist_returns (written this key value) w) as Hr.
  destruct (persist host _ w) as [[[]|e] w1]; simpl in *.
  - destruct (Hr eq_refl) as [Htr _]. unfold notify.
    pose proof (forEach_trace (listeners (written this key value))
                  (state (written this key value)) w1) as Hf.
    exists (snapshot host this (<[key:=value]> (state this)) ++
            ((λ l, Called l (<[key:=value]> (state this))) <$>
               delivered host (listeners this) (<[key:=value]> (state this)))).
    split.
    + destruct (forEach host _ _ w1) as [[[]|e] w2]; simpl in *;
        by rewrite Hf, Htr, <-app_assoc.
    + apply prefix_app. destruct (delivered_prefix (listeners this)
        (<[key:=value]> (state this))) as [k Hk].
      exists ((λ l, Called l (<[key:=value]> (state this))) <$> k).
      by rewrite <-fmap_app, <-Hk.
  - exists []. rewrite (Ht e eq_refl), app_nil_r. split; [done|apply prefix_nil].
Qed.

Lemma forEach_returns_delivered ls s w u :
  (forEach host ls s w).1 = Ret u → delivered host ls s = ls.
Proof.
  revert w. induction ls as [|l ls IH]; intros w; simpl; [done|].
  pose proof (call_outcome l s w) as Hc.
  destruct (call host l s w) as [[[]|e] w1]; simpl in Hc; [|done].
  destruct (throws host l s); [done|]. intros H. by rewrite (IH _ H).
Qed.

Lemma set_trace_complete this key value w b :
  (set host this key value w).1.1 = Ret b →
  trace (set host this key value w).2 = trace w ++ write_steps host this key value ∧
  localStorage (set host this key value w).2 =
    if truthy (storageKey this) then
      match JSON_stringify host (<[key := value]> (state this)) with
      | inr text => <[default EmptyString (storageKey this) := text]> (localStorage w)
      | inl _ => localStorage w
      end
    else localStorage w.
Proof.
  unfold set. fold (written this key value).
  pose proof (persist_returns (written this key value) w) as Hr.
  destruct (persist host _ w) as [[[]|e] w1]; simpl in *; [|done].
  destruct (Hr eq_refl) as [Htr Hls]. unfold notify.
  pose proof (forEach_trace (listeners (written this key value))
                (state (written this key value)) w1) as Hf.
  pose proof (forEach_localStorage (listeners (written this key value))
                (state (written this key value)) w1) as Hl.
  pose proof (forEach_returns_delivered (listeners (written this key value))
                (state (written this key value)) w1) as Hd.
  destruct (forEach host _ _ w1) as [[[]|e] w2]; simpl in *; [|done].
  intros _. rewrite (Hd () eq_refl) in Hf. split.
  - unfold write_steps. by rewrite Hf, Htr, <-app_assoc.
  - by rewrite Hl, Hls.
Qed.

Lemma set_returns this key value w :
  (persist host (written this key value) w).1 = Ret tt →
  Forall (λ l, throws host l (<[key := value]> (state this)) = None) (listeners this) →
  (set host this key value w).1.1 = Ret true.
Proof.
  intros Hp Hall. unfold set. fold (written this key value).
  destruct (persist host _ w) as [[[]|e] w1]; simpl in *; [|done].
  unfold notify.
  pose proof (forEach_returns (listeners (written this key value))
                (state (written this key value)) w1 Hall) as Hf.
  by destruct (forEach host _ _ w1) as [[[]|e] w2]; simpl in *.
Qed.

Lemma elem_of_steps this t ls l s :
  Called l s ∈ snapshot host this t ++ ((λ x, Called x t) <$> ls) ↔ l ∈ ls ∧ s = t.
Proof.
  unfold snapshot. rewrite elem_of_app, list_elem_of_fmap. split.
  - intros [Hs|(x & [= -> ->] & Hx)]; [|done].
    destruct (truthy (storageKey this)); [|by apply elem_of_nil in Hs].
    destruct (JSON_stringify host _); [by apply elem_of_nil in Hs|].
    by apply list_elem_of_singleton in Hs.
  - intros [Hl ->]. right. by exists l.
Qed.

Lemma elem_of_write_steps this key value l s :
  Called l s ∈ write_steps host this key value ↔
  l ∈ listeners this ∧ s = <[key := value]> (state this).
Proof. apply elem_of_steps. Qed.

Lemma set_after_persist this key value w :
  (persist host (written this key value) w).1 = Ret tt →
  trace (set host this key value w).2 =
    trace w ++ snapshot host this (<[key := value]> (state this)) ++
    ((λ l, Called l (<[key := value]> (state this))) <$>
       delivered host (listeners this) (<[key := value]> (state this))) ∧
  (set host this key value w).1.1 =
    match (forEach host (listeners this) (<[key := value]> (state this))
             (persist host (written this key value) w).2).1 with
    | Ret _ => Ret true
    | Thrown e => Thrown e
    end.
Proof.
  unfold set. fold (written this key value).
  pose proof (persist_returns (written this key value) w) as Hr.
  destruct (persist host _ w) as [[[]|e] w1]; simpl in *; [|done].
  intros _. destruct (Hr eq_refl) as [Htr _]. unfold notify.
  pose proof (forEach_trace (listeners (written this key value))
                (state (written this key value)) w1) as Hf.
  simpl in *.
  destruct (forEach host _ _ w1) as [[[]|e] w2]; simpl in *;
    by rewrite Hf, Htr, <-app_assoc.
Qed.

(** ** The claims about a field write *)


(** C1, as the code has it.  When the save of a write throws (the
    serialization or [setItem]), the value has been applied to the record,
    the exception reaches the writer, and nothing else happens: the
    browser is as it was before the write, so no listener is called. *)
Theorem save_failure_keeps_update_skips_notify this key value w e :
  (persist host (written this key value) w).1 = Thrown e →
  set host this key value w = (Thrown e, written this key value, w) ∧
  state (set host this key value w).1.2 = <[key := value]> (state this) ∧
  trace (set host this key value w).2 = trace w.
Proof.
  intros Hp. assert (set host this key value w = (Thrown e, written this key value, w)) as ->.
  { unfold set. fold (written this key value).
    pose proof (persist_throws (written this key value) w e Hp) as Hw.
    destruct (persist host _ w) as [[[]|e'] w1]; simpl in *; [done|]. congruence. }
  done.
Qed.

(** C7.  When a listener throws during the notification pass of a write,
    the listeners before it in the registry have been called with the new
    state, the listeners after it are not called, and the exception
    reaches the writer. *)
Theorem throwing_listener_stops_the_pass this key value w pre l post e :
  listeners this = pre ++ l :: post →
  NoDup (listeners this) →
  (persist host (written this key value) w).1 = Ret tt →
  Forall (λ x, throws host x (<[key := value]> (state this)) = None) pre →
  throws host l (<[key := value]> (state this)) = Some e →
  (set host this key value w).1.1 = Thrown e ∧
  ∃ evs, trace (set host this key value w).2 = trace w ++ evs ∧
    (∀ x, x ∈ pre → Called x (<[key := value]> (state this)) ∈ evs) ∧
    Called l (<[key := value]> (state this)) ∈ evs ∧
    (∀ x s, x ∈ post → Called x s ∉ evs).
Proof.
  intros Hls Hnd Hp Hpre Hl.
  destruct (set_after_persist this key value w Hp) as [Htr Hout].
  rewrite Hls in Htr, Hout.
  rewrite (delivered_until _ _ _ _ _ Hpre Hl) in Htr.
  rewrite (forEach_throws _ _ _ _ _ _ Hpre Hl) in Hout.
  split; [done|]. eexists. split; [exact Htr|].
  rewrite Hls in Hnd. apply NoDup_app in Hnd as (_ & Hdisj & Hnd).
  apply NoDup_cons in Hnd as [Hl' _].
  split; [|split].
  - intros x Hx. apply elem_of_steps. split; [|done]. apply elem_of_app. by left.
  - apply elem_of_steps. split; [|done]. apply elem_of_app. right. by left.
  - intros x s Hx [Hin _]%elem_of_steps.
    apply elem_of_app in Hin as [Hin|Hin%list_elem_of_singleton].
    + apply (Hdisj x Hin). by right.
    + by subst x.
Qed.

(** C8.  A write notifies every listener whatever the field held before:
    the statement has no condition on the old value, and when the value
    written is the one the field already holds the record is left as it
    was and the listeners are called all the same. *)
Theorem every_write_notifies this key value w :
  (persist host (written this key value) w).1 = Ret tt →
  Forall (λ l, throws host l (<[key := value]> (state this)) = None) (listeners this) →
  (set host this key value w).1.1 = Ret true ∧
  (∃ evs, trace (set host this key value w).2 = trace w ++ evs ∧
     ∀ l, l ∈ listeners this → Called l (state (set host this key value w).1.2) ∈ evs) ∧
  (state this !! key = Some value → state (set host this key value w).1.2 = state this).
Proof.
  intros Hp Hall. pose proof (set_returns this key value w Hp Hall) as Hr.
  split; [done|]. split.
  - exists (write_steps host this key value).
    split; [by apply (set_trace_complete this key value w true)|].
    intros l Hl. rewrite set_store. by apply elem_of_write_steps.
  - intros Hold. rewrite set_store. simpl. by apply insert_id.
Qed.

(** ** The patch rule of [html] *)

Lemma truthy_Some (text : string) : text ≠ EmptyString → truthy (Some text) = true.
Proof. intros H. unfold truthy. by rewrite bool_decide_eq_true_2. Qed.

Lemma foldl_unit_world (f : nat → World Val Node → World Val Node) q msg els w :
  foldl (λ (acc : unit * World Val Node) node,
           (tt, f node (onDebugging q msg acc.2))) (tt, w) els =
  (tt, foldl (λ w' el, f el (onDebugging q msg w')) w els).
Proof. revert w. induction els as [|el els IH]; intros w; [done|]. simpl. apply IH. Qed.



Lemma childNodes_onDebugging q msg w el :
  childNodes (onDebugging q msg w) el = childNodes w el.
Proof. unfold onDebugging. by destruct (debugging q). Qed.

Lemma mutations_onDebugging q msg w : mutations (onDebugging q msg w) = mutations w.
Proof. unfold onDebugging. by destruct (debugging q). Qed.









(** ** The registry *)

Lemma elem_of_Set_add l x ls : x ∈ Set_add l ls ↔ x = l ∨ x ∈ ls.
Proof.
  unfold Set_add. case_decide as Hin.
  - split; [by right|]. by intros [->|?].
  - rewrite elem_of_app, list_elem_of_singleton. tauto.
Qed.

Lemma Set_add_NoDup l ls : NoDup ls → NoDup (Set_add l ls).
Proof.
  intros Hnd. unfold Set_add. case_decide as Hin; [done|].
  apply NoDup_app. split; [done|]. split; [|apply NoDup_singleton].
  intros x Hx ->%list_elem_of_singleton. done.
Qed.

Lemma Set_add_again l ls : Set_add l (Set_add l ls) = Set_add l ls.
Proof.
  unfold Set_add at 1. rewrite decide_True; [done|]. apply elem_of_Set_add. by left.
Qed.

Lemma Set_add_new l ls : l ∉ ls → Set_add l ls = ls ++ [l].
Proof. intros Hl. unfold Set_add. by rewrite decide_False. Qed.

Lemma filter_ne_absent l ls : l ∉ ls → filter (λ x, x ≠ l) ls = ls.
Proof.
  induction ls as [|x ls IH]; [done|]. intros [Hx Hl]%not_elem_of_cons.
  rewrite filter_cons_True by done. by rewrite IH.
Qed.

Lemma filter_eq_once l ls : NoDup ls → l ∈ ls → filter (λ x, x = l) ls = [l].
Proof.
  induction 1 as [|x ls Hx Hnd IH]; [by intros ?%elem_of_nil|].
  intros [->|Hin]%elem_of_cons.
  - rewrite filter_cons_True by done. f_equal.
    clear IH Hnd. induction ls as [|y ls IH]; [done|].
    apply not_elem_of_cons in Hx as [Hy Hx].
    rewrite filter_cons_False by done. by apply IH.
  - rewrite filter_cons_False by (by intros ->). by apply IH.
Qed.

Lemma calls_of_app l (evs1 evs2 : list (Event Val)) :
  calls_of l (evs1 ++ evs2) = calls_of l evs1 ++ calls_of l evs2.
Proof. apply omap_app. Qed.

Lemma calls_of_Called l x t (evs : list (Event Val)) :
  calls_of l (Called x t :: evs) =
  (if decide (x = l) then [t] else []) ++ calls_of l evs.
Proof. unfold calls_of. simpl. by case_decide. Qed.

Lemma calls_of_snapshot l this t : calls_of l (snapshot host this t) = [].
Proof.
  unfold snapshot. destruct (truthy (storageKey this)); [|done].
  by destruct (JSON_stringify host t).
Qed.

Lemma calls_of_steps this t ls l :
  calls_of l (snapshot host this t ++ ((λ x, Called x t) <$> ls)) =
  (λ _, t) <$> filter (λ x, x = l) ls.
Proof.
  rewrite calls_of_app, calls_of_snapshot. simpl.
  induction ls as [|x ls IH]; [done|].
  rewrite fmap_cons, calls_of_Called, IH. case_decide.
  - by rewrite filter_cons_True.
  - by rewrite filter_cons_False.
Qed.

Lemma set_listeners_id this : set_listeners (listeners this) this = this.
Proof. by destruct this. Qed.

(** ** subscribe and unsubscribe *)

Lemma subscribe_spec this l w :
  (subscribe host this l w).1.2 = set_listeners (Set_add l (listeners this)) this ∧
  trace (subscribe host this l w).2 = trace w ++ [Called l (state this)] ∧
  (subscribe host this l w).1.1 =
    match throws host l (state this) with
    | None => Ret (mkUnsubscribe l)
    | Some e => Thrown e
    end.
Proof.
  unfold subscribe. simpl.
  pose proof (call_outcome l (state this) w) as Hc.
  pose proof (call_trace l (state this) w) as Htr.
  destruct (call host l (state this) w) as [[[]|e] w1]; simpl in *;
    destruct (throws host l (state this)); by simplify_eq.
Qed.

Lemma subscribe_Ret this l w h this1 w1 :
  subscribe host this l w = (Ret h, this1, w1) →
  h = mkUnsubscribe l ∧
  this1 = set_listeners (Set_add l (listeners this)) this ∧
  trace w1 = trace w ++ [Called l (state this)] ∧
  throws host l (state this) = None.
Proof.
  intros Hs. destruct (subscribe_spec this l w) as (H1 & H2 & H3).
  rewrite Hs in H1, H2, H3. simpl in *.
  destruct (throws host l (state this)); by simplify_eq.
Qed.

Lemma unsubscribe_absent (h : Unsubscribe) this :
  captured h ∉ listeners this → unsubscribe h this = (Ret false, this).
Proof.
  intros Hl. unfold unsubscribe, Set_delete. simpl.
  rewrite bool_decide_eq_false_2 by done.
  by rewrite filter_ne_absent, set_listeners_id.
Qed.

Lemma unsubscribe_listeners (h : Unsubscribe) this x :
  x ∈ listeners (unsubscribe h this).2 ↔ x ∈ listeners this ∧ x ≠ captured h.
Proof. unfold unsubscribe, Set_delete. simpl. rewrite list_elem_of_filter. tauto. Qed.

(** The registry of a store never holds a listener twice: it is empty
    after the constructor and every operation keeps it so. *)
Lemma new_CatStore_NoDup initial key w this :
  new_CatStore host initial key w = Ret this → NoDup (listeners this).
Proof.
  unfold new_CatStore. destruct (truthy (if truthy key then _ else _)).
  - destruct (JSON_parse host _); intros [= <-]. apply NoDup_nil_2.
  - intros [= <-]. apply NoDup_nil_2.
Qed.

Lemma subscribe_NoDup this l w :
  NoDup (listeners this) → NoDup (listeners (subscribe host this l w).1.2).
Proof.
  intros Hnd. destruct (subscribe_spec this l w) as (-> & _). by apply Set_add_NoDup.
Qed.

Lemma unsubscribe_NoDup (h : Unsubscribe) this :
  NoDup (listeners this) → NoDup (listeners (unsubscribe h this).2).
Proof. intros Hnd. unfold unsubscribe, Set_delete. simpl. by apply NoDup_filter. Qed.

Lemma set_NoDup this key value w :
  NoDup (listeners this) → NoDup (listeners (set host this key value w).1.2).
Proof. intros Hnd. by rewrite set_store. Qed.

(** C6.  [subscribe] adds the listener to the registry and calls it once,
    with the current state, within the call; the handle is what it
    returns after the listener has returned (when the listener throws,
    its exception is what comes out of [subscribe]). *)
Theorem subscribe_replays_once this l w :
  listeners (subscribe host this l w).1.2 = Set_add l (listeners this) ∧
  l ∈ listeners (subscribe host this l w).1.2 ∧
  state (subscribe host this l w).1.2 = state this ∧
  trace (subscribe host this l w).2 = trace w ++ [Called l (state this)] ∧
  (subscribe host this l w).1.1 =
    match throws host l (state this) with
    | None => Ret (mkUnsubscribe l)
    | Some e => Thrown e
    end.
Proof.
  destruct (subscribe_spec this l w) as (-> & Htr & Hout). simpl.
  repeat split; try done. apply elem_of_Set_add. by left.
Qed.

(** C9.  The handle returned by [subscribe] for a listener removes that
    listener and no other from the registry of the store, whenever it is
    invoked; the listener is then called by no later write, while every
    other listener still is (by a write whose save and whose remaining
    listeners do not throw, whatever the removed listener would have
    done); invoking the handle when the listener is not (or no longer)
    registered returns [false] and changes nothing. *)
Theorem unsubscribe_removes_only_that_listener this l w h this0 w0 st :
  subscribe host this l w = (Ret h, this0, w0) →
  (unsubscribe h st).1 = Ret (bool_decide (l ∈ listeners st)) ∧
  listeners (unsubscribe h st).2 = filter (λ x, x ≠ l) (listeners st) ∧
  (∀ x, x ∈ listeners (unsubscribe h st).2 ↔ x ∈ listeners st ∧ x ≠ l) ∧
  state (unsubscribe h st).2 = state st ∧
  unsubscribe h (unsubscribe h st).2 = (Ret false, (unsubscribe h st).2) ∧
  (l ∉ listeners st → unsubscribe h st = (Ret false, st)) ∧
  (∀ key value w', ∃ evs,
     trace (set host (unsubscribe h st).2 key value w').2 = trace w' ++ evs ∧
     (∀ s, Called l s ∉ evs) ∧
     ((persist host (written (unsubscribe h st).2 key value) w').1 = Ret tt →
      Forall (λ x, throws host x (<[key := value]> (state st)) = None)
        (listeners (unsubscribe h st).2) →
      (set host (unsubscribe h st).2 key value w').1.1 = Ret true ∧
      ∀ x, x ∈ listeners st → x ≠ l → Called x (<[key := value]> (state st)) ∈ evs)).
Proof.
  intros (-> & _)%subscribe_Ret.
  split; [done|]. split; [done|].
  split; [apply (unsubscribe_listeners (mkUnsubscribe l))|]. split; [done|].
  split; [|split].
  - apply unsubscribe_absent. rewrite unsubscribe_listeners. simpl. tauto.
  - apply (unsubscribe_absent (mkUnsubscribe l)).
  - intros key value w'. set (st' := (unsubscribe (mkUnsubscribe l) st).2).
    destruct (set_trace_prefix st' key value w') as (evs & Htr & Hpre).
    exists evs. split; [done|]. split.
    + intros s Hin. destruct Hpre as [k Hk].
      assert (Called l s ∈ write_steps host st' key value) as Hw.
      { rewrite Hk. apply elem_of_app. by left. }
      apply elem_of_write_steps in Hw as [Hl _].
      apply (unsubscribe_listeners (mkUnsubscribe l)) in Hl. simpl in Hl. tauto.
    + intros Hp Hall.
      pose proof (set_returns st' key value w' Hp Hall) as Hr.
      split; [done|]. intros x Hx Hne.
      destruct (set_trace_complete st' key value w' true Hr) as [Htr' _].
      rewrite Htr in Htr'. apply app_inv_head in Htr'. subst evs.
      apply elem_of_write_steps. split; [|done].
      apply (unsubscribe_listeners (mkUnsubscribe l)). by simpl.
Qed.

(** C10.  Subscribing the same function value twice leaves one entry in
    the registry: the listener is replayed by each of the two calls of
    [subscribe], a later write calls it once, and either handle removes
    it, after which the other handle returns [false] and changes
    nothing. *)
Theorem same_listener_twice_is_one_entry this l w h1 this1 w1 h2 this2 w2 :
  NoDup (listeners this) →
  subscribe host this l w = (Ret h1, this1, w1) →
  subscribe host this1 l w1 = (Ret h2, this2, w2) →
  trace w2 = trace w ++ [Called l (state this); Called l (state this)] ∧
  listeners this2 = listeners this1 ∧
  filter (λ x, x = l) (listeners this2) = [l] ∧
  (∀ key value w',
     (persist host (written this2 key value) w').1 = Ret tt →
     Forall (λ x, throws host x (<[key := value]> (state this2)) = None)
       (listeners this2) →
     ∃ evs, trace (set host this2 key value w').2 = trace w' ++ evs ∧
            calls_of l evs = [<[key := value]> (state this2)]) ∧
  ((unsubscribe h1 this2).1 = Ret true ∧ (l ∉ listeners (unsubscribe h1 this2).2) ∧
   unsubscribe h2 (unsubscribe h1 this2).2 = (Ret false, (unsubscribe h1 this2).2)) ∧
  ((unsubscribe h2 this2).1 = Ret true ∧ (l ∉ listeners (unsubscribe h2 this2).2) ∧
   unsubscribe h1 (unsubscribe h2 this2).2 = (Ret false, (unsubscribe h2 this2).2)).
Proof.
  intros Hnd (-> & Ht1 & Htr1 & _)%subscribe_Ret (-> & Ht2 & Htr2 & _)%subscribe_Ret.
  assert (listeners this1 = Set_add l (listeners this)) as L1 by (by rewrite Ht1).
  assert (state this1 = state this) as S1 by (by rewrite Ht1).
  assert (listeners this2 = Set_add l (listeners this)) as L2.
  { rewrite Ht2. simpl. rewrite L1. apply Set_add_again. }
  assert (l ∈ Set_add l (listeners this)) as Hin by (apply elem_of_Set_add; by left).
  assert (filter (λ x, x = l) (listeners this2) = [l]) as Hone.
  { rewrite L2. apply filter_eq_once; [by apply Set_add_NoDup|done]. }
  assert (∀ st : CatStore Val, listeners st = Set_add l (listeners this) →
    (unsubscribe (mkUnsubscribe l) st).1 = Ret true ∧
    (l ∉ listeners (unsubscribe (mkUnsubscribe l) st).2) ∧
    unsubscribe (mkUnsubscribe l) (unsubscribe (mkUnsubscribe l) st).2 =
      (Ret false, (unsubscribe (mkUnsubscribe l) st).2)) as Hun.
  { intros st Hst.
    assert (l ∉ listeners (unsubscribe (mkUnsubscribe l) st).2) as Hout.
    { rewrite (unsubscribe_listeners (mkUnsubscribe l)). simpl. tauto. }
    split; [|split; [done|by apply unsubscribe_absent]].
    unfold unsubscribe, Set_delete. simpl. rewrite Hst.
    by rewrite bool_decide_eq_true_2. }
  split; [by rewrite Htr2, Htr1, S1, <-app_assoc|].
  split; [by rewrite L2, L1|]. split; [done|].
  split; [|split; by apply Hun].
  intros key value w' Hp Hall. eexists. split.
  - eapply (set_trace_complete _ key value w' true), set_returns; done.
  - unfold write_steps. rewrite calls_of_steps. by rewrite Hone.
Qed.

(** ** Persistence across stores *)

Lemma set_localStorage_persist this key value w :
  localStorage (set host this key value w).2 =
  localStorage (persist host (written this key value) w).2.
Proof.
  unfold set. fold (written this key value).
  destruct (persist host _ w) as [[[]|e] w1]; simpl; [|done]. unfold notify.
  pose proof (forEach_localStorage (listeners (written this key value))
                (state (written this key value)) w1) as Hl.
  by destruct (forEach host _ _ w1) as [[[]|e] w2]; simpl in *.
Qed.

(** C5, as the code has it.  For a store whose slot key is not the empty
    string, after a field write whose save succeeded (the updated record
    serializes and [setItem] accepts the text) and whose snapshot text
    parses back to the updated record, a store constructed next with the
    same slot starts from the updated record and not from the initial
    value it is given.  (The text of a snapshot is never empty in a
    browser: an object serializes to [{}] at least.) *)
Theorem snapshot_restored_by_next_store this key value w k text initial :
  storageKey this = Some k →
  k ≠ EmptyString →
  JSON_stringify host (<[key := value]> (state this)) = inr text →
  setItem_error host (localStorage w) k text = None →
  text ≠ EmptyString →
  JSON_parse host text = inr (<[key := value]> (state this)) →
  localStorage (set host this key value w).2 !! k = Some text ∧
  ∃ st2, new_CatStore host initial (Some k) (set host this key value w).2 = Ret st2 ∧
    state st2 = state (set host this key value w).1.2 ∧
    listeners st2 = [] ∧ storageKey st2 = Some k.
Proof.
  intros Hk Hne Hs Hq Ht Hp.
  assert (localStorage (set host this key value w).2 !! k = Some text) as Hl.
  { rewrite set_localStorage_persist. unfold persist, written, setItem. simpl.
    rewrite Hk, (truthy_Some _ Hne), Hs. simpl. rewrite Hq. simpl.
    apply lookup_insert_eq. }
  split; [done|]. rewrite set_store. unfold new_CatStore.
  rewrite (truthy_Some _ Hne). simpl. rewrite Hl, (truthy_Some _ Ht). simpl.
  rewrite Hp. by eexists.
Qed.

(** ** bind *)

(** C2, as the code has it.  [bind] subscribes an arrow function of its
    own: it is in no registry before (the arrow functions a registry may
    hold were allocated earlier) and is appended at the end of this one.
    [bind] returns its receiver, the [CatQuery] object, not the handle
    that [subscribe] returned (or throws what the first rendering
    throws); the arrow function stays in the registry, and every later
    write that returns has called it again with the new state. *)
Theorem bind_returns_receiver_and_stays_subscribed q store r w :
  closures_below (next_closure w) (listeners store) →
  (BindFn (next_closure w) q r ∉ listeners store) ∧
  (bind host q store r w).1.1 =
    match throws host (BindFn (next_closure w) q r) (state store) with
    | None => Ret q
    | Some e => Thrown e
    end ∧
  listeners (bind host q store r w).1.2 =
    listeners store ++ [BindFn (next_closure w) q r] ∧
  state (bind host q store r w).1.2 = state store ∧
  trace (bind host q store r w).2 =
    trace w ++ [Called (BindFn (next_closure w) q r) (state store)] ∧
  (∀ key value w',
     (persist host (written (bind host q store r w).1.2 key value) w').1 = Ret tt →
     Forall (λ x, throws host x (<[key := value]> (state store)) = None)
       (listeners (bind host q store r w).1.2) →
     (set host (bind host q store r w).1.2 key value w').1.1 = Ret true) ∧
  (∀ key value w' b,
     (set host (bind host q store r w).1.2 key value w').1.1 = Ret b →
     listeners (set host (bind host q store r w).1.2 key value w').1.2 =
       listeners store ++ [BindFn (next_closure w) q r] ∧
     ∃ evs, trace (set host (bind host q store r w).1.2 key value w').2 = trace w' ++ evs ∧
       Called (BindFn (next_closure w) q r) (<[key := value]> (state store)) ∈ evs).
Proof.
  intros Hbelow.
  assert (BindFn (next_closure w) q r ∉ listeners store) as Hfresh.
  { intros Hin. specialize (Hbelow _ _ _ Hin). lia. }
  split; [done|]. revert Hfresh. clear Hbelow.
  assert (∃ b, b = BindFn (next_closure w) q r) as [b Hb0] by eauto.
  rewrite <-!Hb0. intros Hfresh.
  destruct (subscribe_spec store b (set_next_closure (S (next_closure w)) w))
    as (Hst & Htr & Hout).
  assert (bind host q store r w =
          (match (subscribe host store b (set_next_closure (S (next_closure w)) w)).1.1 with
           | Ret _ => Ret q
           | Thrown e => Thrown e
           end,
           (subscribe host store b (set_next_closure (S (next_closure w)) w)).1.2,
           (subscribe host store b (set_next_closure (S (next_closure w)) w)).2)) as Hbind.
  { unfold bind. rewrite <-Hb0.
    by destruct (subscribe host store b _) as [[[h|e] st1] w1]. }
  rewrite Hbind. cbn [fst snd]. rewrite Hst, Htr, Hout. simpl.
  clear Hbind Hst Htr Hout. rewrite (Set_add_new b _ Hfresh).
  split; [by destruct (throws host b (state store))|].
  split; [done|]. split; [done|]. split; [done|]. split.
  - intros key value w' Hp Hall. by apply set_returns.
  - intros key value w' b' Hr. split; [by rewrite set_store|].
    eexists. split; [by apply (set_trace_complete _ key value w' b')|].
    apply elem_of_write_steps. split; [|done]. simpl. apply elem_of_app. right. by left.
Qed.

End Properties.

(** * The claims on the counter page *)


(** The write of C1 on the counter page when the storage is full. *)
Lemma save_failure_keeps_update_skips_notify_witness :
  (persist (Demo.host 0) (written Demo.store_one "count" 1%Z) Demo.w_one).1
    = Thrown Demo.quota_exceeded ∧
  set (Demo.host 0) Demo.store_one "count" 1%Z Demo.w_one =
    (Thrown Demo.quota_exceeded, written Demo.store_one "count" 1%Z, Demo.w_one).
Proof.
  assert ((persist (Demo.host 0) (written Demo.store_one "count" 1%Z) Demo.w_one).1
            = Thrown Demo.quota_exceeded) as Hp by (vm_compute; reflexivity).
  split; [exact Hp|].
  exact (proj1 (save_failure_keeps_update_skips_notify (Demo.host 0) Demo.store_one "count" 1%Z
                  Demo.w_one Demo.quota_exceeded Hp)).
Defined.

(** C1 fails as stated.  A store is constructed with the slot ["k"] and a
    listener subscribes (it is replayed with [{count: 0}]).  The storage
    is full, so the save of the write [state.count = 1] throws: the record
    is updated, but the subscriber is not called with the new state, on
    that write or at all. *)
Lemma save_failure_skips_listeners_counterexample :
  new_CatStore (Demo.host 0) (Demo.counter 0) (Some "k") Demo.w0 =
    Ret (mkCatStore [] (Demo.counter 0) (Some "k")) ∧
  subscribe (Demo.host 0) (mkCatStore [] (Demo.counter 0) (Some "k")) (UserFn 0) Demo.w0 =
    (Ret (mkUnsubscribe (UserFn 0)), Demo.store_one, Demo.w_one) ∧
  (persist (Demo.host 0) (written Demo.store_one "count" 1%Z) Demo.w_one).1
    = Thrown Demo.quota_exceeded ∧
  (set (Demo.host 0) Demo.store_one "count" 1%Z Demo.w_one).1.1 = Thrown Demo.quota_exceeded ∧
  state (set (Demo.host 0) Demo.store_one "count" 1%Z Demo.w_one).1.2 = Demo.counter 1 ∧
  listeners (set (Demo.host 0) Demo.store_one "count" 1%Z Demo.w_one).1.2 = [UserFn 0] ∧
  trace (set (Demo.host 0) Demo.store_one "count" 1%Z Demo.w_one).2 =
    [Called (UserFn 0) (Demo.counter 0)] ∧
  ¬ (∃ evs, trace (set (Demo.host 0) Demo.store_one "count" 1%Z Demo.w_one).2 =
              trace Demo.w_one ++ evs ∧
            Called (UserFn 0) (Demo.counter 1) ∈ evs).
Proof.
  repeat split; try (vm_compute; reflexivity).
  intros (evs & Htr & Hin).
  assert (trace (set (Demo.host 0) Demo.store_one "count" 1%Z Demo.w_one).2 = trace Demo.w_one ++ [])
    as Hnil by (vm_compute; reflexivity).
  rewrite Hnil in Htr. apply app_inv_head in Htr. subst evs.
  by apply elem_of_nil in Hin.
Qed.


(** C7 on the counter page: the second of three listeners throws. *)
Lemma throwing_listener_stops_the_pass_witness :
  listeners Demo.store_bad = [UserFn 0] ++ UserFn 2 :: [UserFn 1] ∧
  throws (Demo.host 100) (UserFn 2) (<["count" := 1%Z]> (state Demo.store_bad))
    = Some (Error "listener 2") ∧
  (set (Demo.host 100) Demo.store_bad "count" 1%Z Demo.w0).1.1
    = Thrown (Error "listener 2") ∧
  trace (set (Demo.host 100) Demo.store_bad "count" 1%Z Demo.w0).2 =
    [Called (UserFn 0) (Demo.counter 1); Called (UserFn 2) (Demo.counter 1)].
Proof.
  assert (NoDup (listeners Demo.store_bad)) as Hnd.
  { apply (bool_decide_unpack _). vm_compute. exact I. }
  assert (Forall (λ x, throws (Demo.host 100) x (<["count" := 1%Z]> (state Demo.store_bad))
                       = None) [UserFn 0]) as Hpre by (repeat constructor).
  pose proof (throwing_listener_stops_the_pass (Demo.host 100) Demo.store_bad "count" 1%Z
                Demo.w0 [UserFn 0] (UserFn 2) [UserFn 1] (Error "listener 2")
                eq_refl Hnd eq_refl Hpre eq_refl) as [Hout _].
  split; [reflexivity|]. split; [reflexivity|]. split; [exact Hout|].
  vm_compute. reflexivity.
Defined.

(** C8 on the counter page: writing to [count] the value it already holds. *)
Lemma every_write_notifies_witness :
  state Demo.store_k !! "count" = Some 0%Z ∧
  (set (Demo.host 100) Demo.store_k "count" 0%Z Demo.w0).1.1 = Ret true ∧
  state (set (Demo.host 100) Demo.store_k "count" 0%Z Demo.w0).1.2 = state Demo.store_k ∧
  trace (set (Demo.host 100) Demo.store_k "count" 0%Z Demo.w0).2 =
    [Saved "k" "{count:0}"; Called (UserFn 0) (Demo.counter 0);
     Called (UserFn 1) (Demo.counter 0)].
Proof.
  assert (state Demo.store_k !! "count" = Some 0%Z) as Hold by (vm_compute; reflexivity).
  assert ((persist (Demo.host 100) (written Demo.store_k "count" 0%Z) Demo.w0).1 = Ret tt)
    as Hp by (vm_compute; reflexivity).
  assert (Forall (λ l, throws (Demo.host 100) l (<["count" := 0%Z]> (state Demo.store_k))
                       = None) (listeners Demo.store_k)) as Hall by (repeat constructor).
  destruct (every_write_notifies (Demo.host 100) Demo.store_k "count" 0%Z Demo.w0 Hp Hall)
    as (Hout & _ & Hsame).
  split; [exact Hold|]. split; [exact Hout|]. split; [exact (Hsame Hold)|].
  vm_compute. reflexivity.
Defined.

(** An instance of C6: the replay on a store nobody writes to. *)
Example subscribe_replays_once_example :
  subscribe (Demo.host 100) (mkCatStore [] (Demo.counter 0) (Some "k")) (UserFn 0) Demo.w0
  = (Ret (mkUnsubscribe (UserFn 0)), Demo.store_one, Demo.w_one).
Proof. vm_compute. reflexivity. Qed.

(** C9 on the counter page: the second listener of [store_k] subscribes, then
    unsubscribes. *)
Lemma unsubscribe_removes_only_that_listener_witness :
  subscribe (Demo.host 100) Demo.store_one (UserFn 1) Demo.w_one =
    (Ret (mkUnsubscribe (UserFn 1)), Demo.store_k,
     (subscribe (Demo.host 100) Demo.store_one (UserFn 1) Demo.w_one).2) ∧
  unsubscribe (mkUnsubscribe (UserFn 1)) Demo.store_k = (Ret true, Demo.store_one) ∧
  unsubscribe (mkUnsubscribe (UserFn 1)) Demo.store_one = (Ret false, Demo.store_one).
Proof.
  assert (subscribe (Demo.host 100) Demo.store_one (UserFn 1) Demo.w_one =
            (Ret (mkUnsubscribe (UserFn 1)), Demo.store_k,
             (subscribe (Demo.host 100) Demo.store_one (UserFn 1) Demo.w_one).2)) as Hs
    by (vm_compute; reflexivity).
  destruct (unsubscribe_removes_only_that_listener (Demo.host 100) Demo.store_one
              (UserFn 1) Demo.w_one _ _ _ Demo.store_k Hs) as (_ & _ & _ & _ & Hagain & _).
  split; [exact Hs|]. split; [vm_compute; reflexivity|]. exact Hagain.
Defined.

(** C10 on the counter page: the same listener subscribes twice to a store without
    listeners. *)
Lemma same_listener_twice_is_one_entry_witness :
  subscribe (Demo.host 100) (mkCatStore [] (Demo.counter 0) (Some "k")) (UserFn 0) Demo.w0
    = (Ret (mkUnsubscribe (UserFn 0)), Demo.store_one, Demo.w_one) ∧
  subscribe (Demo.host 100) Demo.store_one (UserFn 0) Demo.w_one
    = (Ret (mkUnsubscribe (UserFn 0)), Demo.store_one,
       (subscribe (Demo.host 100) Demo.store_one (UserFn 0) Demo.w_one).2) ∧
  trace (subscribe (Demo.host 100) Demo.store_one (UserFn 0) Demo.w_one).2 =
    [Called (UserFn 0) (Demo.counter 0); Called (UserFn 0) (Demo.counter 0)] ∧
  filter (λ x, x = UserFn 0) (listeners Demo.store_one) = [UserFn 0] ∧
  unsubscribe (mkUnsubscribe (UserFn 0))
    (unsubscribe (mkUnsubscribe (UserFn 0)) Demo.store_one).2 =
    (Ret false, (unsubscribe (mkUnsubscribe (UserFn 0)) Demo.store_one).2).
Proof.
  assert (subscribe (Demo.host 100) (mkCatStore [] (Demo.counter 0) (Some "k")) (UserFn 0)
            Demo.w0 = (Ret (mkUnsubscribe (UserFn 0)), Demo.store_one, Demo.w_one)) as H1
    by (vm_compute; reflexivity).
  assert (subscribe (Demo.host 100) Demo.store_one (UserFn 0) Demo.w_one
            = (Ret (mkUnsubscribe (UserFn 0)), Demo.store_one,
               (subscribe (Demo.host 100) Demo.store_one (UserFn 0) Demo.w_one).2)) as H2
    by (vm_compute; reflexivity).
  destruct (same_listener_twice_is_one_entry (Demo.host 100) _ _ _ _ _ _ _ _ _
              (NoDup_nil_2 : NoDup (listeners (mkCatStore [] (Demo.counter 0) (Some "k"))))
              H1 H2) as (Htr & _ & Hone & _ & (_ & _ & Hnoop) & _).
  split; [exact H1|]. split; [exact H2|]. split; [exact Htr|]. split; [exact Hone|].
  exact Hnoop.
Defined.



(** A markup that does not serialize back to itself is replaced again on
    every rendering: the text [a>b] is serialized as [a&gt;b]. *)
Example rerender_replaces_again :
  innerHTML (Demo.host 0)
    (childNodes (html (Demo.host 0) Demo.q7 (Some "a>b") false (Demo.page "x")).2 7)
    = "a&gt;b" ∧
  mutations (html (Demo.host 0) Demo.q7 (Some "a>b") false
               (html (Demo.host 0) Demo.q7 (Some "a>b") false (Demo.page "x")).2).2
    = [(7, ["a>b"]); (7, ["a>b"])].
Proof. split; vm_compute; reflexivity. Qed.

(** The round trip of C5 at work: the counter is saved under ["k"] and a
    second store starts from it. *)
Lemma snapshot_restored_by_next_store_witness :
  localStorage (set (Demo.host 100) Demo.store_k "count" 1%Z Demo.w0).2 !! "k"
    = Some "{count:1}" ∧
  new_CatStore (Demo.host 100) (Demo.counter 0) (Some "k")
    (set (Demo.host 100) Demo.store_k "count" 1%Z Demo.w0).2
    = Ret (mkCatStore [] (Demo.counter 1) (Some "k")).
Proof.
  assert ("k" ≠ EmptyString) as Hk by discriminate.
  assert ("{count:1}" ≠ EmptyString) as Ht by discriminate.
  destruct (snapshot_restored_by_next_store (Demo.host 100) Demo.store_k "count" 1%Z
              Demo.w0 "k" "{count:1}" (Demo.counter 0) eq_refl Hk eq_refl eq_refl Ht eq_refl)
    as (Hl & st2 & Hnew & _).
  split; [exact Hl|]. vm_compute. reflexivity.
Defined.

(** C5 fails as stated at the empty slot key.  The record [{count: 0}]
    serializes and parses back, the store is constructed with the slot
    [""], [count] is set to 1 (nothing is saved), and a second store
    constructed with [{count: 0}] and the same slot starts from
    [{count: 0}], not from the mutated state. *)
Lemma empty_slot_key_counterexample :
  JSON_stringify (Demo.host 100) (Demo.counter 0) = inr "{count:0}" ∧
  JSON_parse (Demo.host 100) "{count:0}" = inr (Demo.counter 0) ∧
  new_CatStore (Demo.host 100) (Demo.counter 0) (Some EmptyString) Demo.w0 =
    Ret (mkCatStore [] (Demo.counter 0) (Some EmptyString)) ∧
  set (Demo.host 100) (mkCatStore [] (Demo.counter 0) (Some EmptyString)) "count" 1%Z Demo.w0 =
    (Ret true, mkCatStore [] (Demo.counter 1) (Some EmptyString), Demo.w0) ∧
  new_CatStore (Demo.host 100) (Demo.counter 0) (Some EmptyString)
    (set (Demo.host 100) (mkCatStore [] (Demo.counter 0) (Some EmptyString))
       "count" 1%Z Demo.w0).2 =
    Ret (mkCatStore [] (Demo.counter 0) (Some EmptyString)) ∧
  Demo.counter 0 ≠ Demo.counter 1.
Proof.
  repeat split; try (vm_compute; reflexivity).
  intros H. apply (f_equal (λ m : gmap string Z, m !! "count")) in H.
  vm_compute in H. discriminate.
Qed.

(** C2 fails as stated.  [cq("#counter").bind(store, render0)] returns the
    [CatQuery] it was called on; the handle of the subscription it made is
    dropped, so nothing the caller holds removes the arrow function from
    the registry: it is still there after the next write, which renders
    into the target again. *)
Lemma bind_gives_no_teardown_counterexample :
  bind (Demo.host 0) Demo.q7 Demo.store_empty 0 (Demo.page "x") =
    (Ret Demo.q7, Demo.store_bound, Demo.w_bound) ∧
  listeners Demo.store_bound = [BindFn 0 Demo.q7 0] ∧
  childNodes Demo.w_bound 7 = ["zero"] ∧
  (set (Demo.host 0) Demo.store_bound "count" 1%Z Demo.w_bound).1.1 = Ret true ∧
  listeners (set (Demo.host 0) Demo.store_bound "count" 1%Z Demo.w_bound).1.2 =
    [BindFn 0 Demo.q7 0] ∧
  childNodes (set (Demo.host 0) Demo.store_bound "count" 1%Z Demo.w_bound).2 7 = ["one"].
Proof. repeat split; vm_compute; reflexivity. Qed.

(** [bind] on a store that already holds an arrow function of an earlier
    [bind]: the new one is appended after it. *)
Lemma bind_returns_receiver_and_stays_subscribed_witness :
  closures_below (next_closure Demo.w_bound) (listeners Demo.store_bound) ∧
  (bind (Demo.host 0) Demo.q7 Demo.store_bound 0 Demo.w_bound).1.1 = Ret Demo.q7 ∧
  listeners (bind (Demo.host 0) Demo.q7 Demo.store_bound 0 Demo.w_bound).1.2 =
    [BindFn 0 Demo.q7 0; BindFn 1 Demo.q7 0].
Proof.
  assert (closures_below (next_closure Demo.w_bound) (listeners Demo.store_bound)) as Hb.
  { intros m q r Hin. simpl in Hin. apply list_elem_of_singleton in Hin.
    injection Hin as -> _ _. simpl. lia. }
  destruct (bind_returns_receiver_and_stays_subscribed (Demo.host 0) Demo.q7
              Demo.store_bound 0 Demo.w_bound Hb) as (_ & Hout & Hls & _).
  split; [exact Hb|]. split; [exact Hout|exact Hls].
Defined.


(** * More properties of the store *)

Section MoreStore.

Context {Val Node : Type} (host : Host Val Node).

Implicit Types (w : World Val Node) (this : CatStore Val) (l : Listener).
Implicit Types (s : gmap string Val) (q : CatQuery) (ls : list Listener).
Implicit Types (writes : list (string * Val)).

Lemma persist_no_slot this w :
  truthy (storageKey this) = false → persist host this w = (Ret tt, w).
Proof. intros H. unfold persist. by rewrite H. Qed.

Lemma set_Ret_persist this key value w b :
  (set host this key value w).1.1 = Ret b →
  (persist host (written this key value) w).1 = Ret tt.
Proof.
  unfold set. fold (written this key value).
  by destruct (persist host _ w) as [[[]|e] w1].
Qed.

Lemma set_storageKey this key value w :
  storageKey (set host this key value w).1.2 = storageKey this.
Proof. by rewrite set_store. Qed.

Lemma set_listeners_same this key value w :
  listeners (set host this key value w).1.2 = listeners this.
Proof. by rewrite set_store. Qed.

Lemma filter_is_Saved_calls ls s :
  filter is_Saved ((λ l, Called l s) <$> ls : list (Event Val)) = [].
Proof.
  induction ls as [|l ls IH]; [done|].
  rewrite fmap_cons, filter_cons_False by (simpl; tauto). exact IH.
Qed.

Lemma snapshot_no_slot this s :
  truthy (storageKey this) = false → snapshot host this s = [].
Proof. intros H. unfold snapshot. by rewrite H. Qed.

(** X1.  A store without a slot (or with the empty slot key) never saves:
    whatever the writes, the storage stays as it was and no snapshot is
    saved. *)
Theorem no_slot_never_saves this writes w :
  truthy (storageKey this) = false →
  localStorage (assign_all host this writes w).2 = localStorage w ∧
  ∃ evs, trace (assign_all host this writes w).2 = trace w ++ evs ∧
         filter is_Saved evs = [].
Proof.
  revert this w. induction writes as [|[key value] writes IH]; intros this w Hk.
  - split; [done|]. exists []. by rewrite app_nil_r.
  - simpl.
    pose proof (set_localStorage_persist host this key value w) as Hl.
    rewrite (persist_no_slot (written this key value) w Hk) in Hl.
    destruct (set_trace_prefix host this key value w) as (evs1 & Htr1 & [k Hpre]).
    pose proof (set_storageKey this key value w) as Hkey.
    assert (filter is_Saved evs1 = []) as Hev1.
    { assert (filter is_Saved (write_steps host this key value) = []) as Hws.
      { unfold write_steps. rewrite filter_app, (snapshot_no_slot _ _ Hk).
        apply filter_is_Saved_calls. }
      rewrite Hpre, filter_app in Hws. by apply app_eq_nil in Hws as [? _]. }
    destruct (set host this key value w) as [[[b|e] this1] w1]; simpl in *.
    + rewrite <-Hkey in Hk. destruct (IH this1 w1 Hk) as (Hl2 & evs2 & Htr2 & Hev2).
      split; [congruence|]. exists (evs1 ++ evs2).
      rewrite Htr2, Htr1, <-app_assoc, filter_app, Hev1, Hev2. done.
    + split; [done|]. by exists evs1.
Qed.

Lemma filter_is_Saved_snapshot this s text :
  truthy (storageKey this) = true → JSON_stringify host s = inr text →
  filter is_Saved (snapshot host this s) = snapshot host this s ∧
  length (snapshot host this s) = 1.
Proof. intros Hk Hs. unfold snapshot. by rewrite Hk, Hs. Qed.

(** X2.  Writes are neither batched nor coalesced: when [n] writes in a row
    all return, on a store with a slot, [n] snapshots have been saved and
    every listener has been called [n] times. *)
Theorem each_write_saves_and_notifies this writes w b :
  truthy (storageKey this) = true →
  NoDup (listeners this) →
  (assign_all host this writes w).1.1 = Ret b →
  ∃ evs, trace (assign_all host this writes w).2 = trace w ++ evs ∧
    length (filter is_Saved evs) = length writes ∧
    ∀ l, l ∈ listeners this → length (calls_of l evs) = length writes.
Proof.
  revert this w. induction writes as [|[key value] writes IH]; intros this w Hk Hnd.
  - intros _. exists []. by rewrite app_nil_r.
  - simpl.
    pose proof (set_trace_complete host this key value w) as Htr1.
    pose proof (set_Ret_persist this key value w) as Hp.
    pose proof (set_storageKey this key value w) as Hkey.
    pose proof (set_listeners_same this key value w) as Hls.
    destruct (set host this key value w) as [[[b1|e] this1] w1]; simpl in *; [|done].
    intros Hret. destruct (Htr1 b1 eq_refl) as [Htr _]. specialize (Hp b1 eq_refl).
    assert (truthy (storageKey this1) = true) as Hk1 by (by rewrite Hkey).
    assert (NoDup (listeners this1)) as Hnd1 by (by rewrite Hls).
    destruct (IH this1 w1 Hk1 Hnd1 Hret) as (evs2 & Htr2 & Hs2 & Hc2).
    assert (∃ text, JSON_stringify host (<[key:=value]> (state this)) = inr text)
      as [text Htext].
    { unfold persist, written in Hp. simpl in Hp. rewrite Hk in Hp.
      destruct (JSON_stringify host _) as [e|text]; [done|by exists text]. }
    destruct (filter_is_Saved_snapshot this _ text Hk Htext) as [Hf Hlen].
    exists (write_steps host this key value ++ evs2).
    split; [by rewrite Htr2, Htr, <-app_assoc|]. split.
    + rewrite filter_app, length_app, Hs2. unfold write_steps.
      by rewrite filter_app, filter_is_Saved_calls, app_nil_r, Hf, Hlen.
    + intros l Hl. rewrite calls_of_app, length_app, Hc2 by (by rewrite Hls).
      unfold write_steps. rewrite calls_of_steps, length_fmap.
      by rewrite (filter_eq_once l _ Hnd Hl).
Qed.

(** X3.  The constructor reads the storage and nothing else, so after a write
    whose save threw (the slot keeps its previous content) a store
    constructed next starts exactly as it would have before the write. *)
Theorem failed_save_leaves_stale_snapshot this key value w e initial slot :
  (persist host (written this key value) w).1 = Thrown e →
  new_CatStore host initial slot (set host this key value w).2 =
  new_CatStore host initial slot w.
Proof.
  intros Hp. unfold new_CatStore.
  rewrite set_localStorage_persist, (persist_throws host _ w e Hp). done.
Qed.

(** X4.  The constructor has no fallback: over a slot that holds a non-empty
    text that does not parse it throws, for every initial value; over a
    missing slot, or one that holds the empty text, it starts from the
    initial value; a store it returns has an empty registry and either the
    initial value or the parsed snapshot as its state. *)
Theorem constructor_restores_or_throws initial k w :
  k ≠ EmptyString →
  (∀ text e, localStorage w !! k = Some text → text ≠ EmptyString →
     JSON_parse host text = inl e →
     new_CatStore host initial (Some k) w = Thrown e) ∧
  (localStorage w !! k = None ∨ localStorage w !! k = Some EmptyString →
     new_CatStore host initial (Some k) w = Ret (mkCatStore [] initial (Some k))) ∧
  (∀ this, new_CatStore host initial (Some k) w = Ret this →
     listeners this = [] ∧ storageKey this = Some k ∧
     (state this = initial ∨
      ∃ text, localStorage w !! k = Some text ∧ JSON_parse host text = inr (state this))).
Proof.
  intros Hk. unfold new_CatStore. rewrite (truthy_Some _ Hk). simpl.
  split; [|split].
  - intros text e Hl Ht Hp. rewrite Hl, (truthy_Some _ Ht). simpl. by rewrite Hp.
  - by intros [->| ->].
  - intros this. destruct (localStorage w !! k) as [text|] eqn:Hl; simpl.
    + case_bool_decide; simpl.
      * destruct (JSON_parse host text) as [e|s] eqn:Hp; [done|].
        intros [= <-]. simpl. split; [done|]. split; [done|]. right. by exists text.
      * intros [= <-]. simpl. by repeat split; left.
    + intros [= <-]. by repeat split; left.
Qed.

(** X5.  A listener that throws when it is replayed makes [subscribe] throw,
    so the caller gets no handle, but the listener is in the registry all
    the same and every later write that returns has called it. *)
Theorem throwing_replay_stays_registered this l w e :
  throws host l (state this) = Some e →
  (subscribe host this l w).1.1 = Thrown e ∧
  l ∈ listeners (subscribe host this l w).1.2 ∧
  ∀ key value w' b,
    (set host (subscribe host this l w).1.2 key value w').1.1 = Ret b →
    ∃ evs, trace (set host (subscribe host this l w).1.2 key value w').2 = trace w' ++ evs ∧
           Called l (<[key := value]> (state this)) ∈ evs.
Proof.
  intros Ht. destruct (subscribe_spec host this l w) as (Hst & _ & Hout).
  rewrite Ht in Hout. rewrite Hst. split; [done|].
  assert (l ∈ Set_add l (listeners this)) as Hin by (apply elem_of_Set_add; by left).
  split; [done|]. intros key value w' b Hret.
  exists (write_steps host (set_listeners (Set_add l (listeners this)) this) key value).
  split; [by apply (set_trace_complete host _ key value w' b)|].
  by apply elem_of_write_steps.
Qed.

Lemma call_next_closure l s w : next_closure (call host l s w).2 = next_closure w.
Proof.
  destruct l as [f|n q r]; simpl.
  - by destruct (listener_fn host f s).
  - destruct (render_fn host r s) as [e|markup]; [done|]. simpl.
    by destruct (html_store_side host q (Some markup) false
                   (log (Called (BindFn n q r) s) w)) as (_ & _ & ->).
Qed.

Lemma bind_spec q store r w :
  (bind host q store r w).1.2 =
    set_listeners (Set_add (BindFn (next_closure w) q r) (listeners store)) store ∧
  next_closure (bind host q store r w).2 = S (next_closure w) ∧
  trace (bind host q store r w).2 =
    trace w ++ [Called (BindFn (next_closure w) q r) (state store)].
Proof.
  assert (∃ b, b = BindFn (next_closure w) q r) as [b Hb0] by eauto.
  rewrite <-!Hb0.
  destruct (subscribe_spec host store b (set_next_closure (S (next_closure w)) w))
    as (Hst & Htr & _).
  assert (next_closure (subscribe host store b (set_next_closure (S (next_closure w)) w)).2
          = S (next_closure w)) as Hn.
  { unfold subscribe.
    pose proof (call_next_closure b
                  (state (set_listeners (Set_add b (listeners store)) store))
                  (set_next_closure (S (next_closure w)) w)) as Hc.
    by destruct (call host b _ _) as [[[]|e] w1]. }
  unfold bind. rewrite <-Hb0.
  by destruct (subscribe host store b _) as [[[h|e] st1] w1]; simpl in *.
Qed.

(** X6.  The registry never holds a listener twice, in any store a program
    can hold. *)
Theorem reachable_registry_has_no_duplicate this :
  reachable host this → NoDup (listeners this).
Proof.
  induction 1 as [initial key w this Hnew|this l w _ IH|h this _ IH|
                  this key value w _ IH|q this r w _ IH].
  - by eapply new_CatStore_NoDup.
  - by apply subscribe_NoDup.
  - by apply unsubscribe_NoDup.
  - by apply set_NoDup.
  - destruct (bind_spec q this r w) as (-> & _). by apply Set_add_NoDup.
Qed.

Lemma closures_below_Set_add n q r ls :
  closures_below n ls → closures_below (S n) (Set_add (BindFn n q r) ls).
Proof.
  intros Hb m q' r' [[= -> -> ->]|Hin]%elem_of_Set_add; [lia|].
  specialize (Hb m q' r' Hin). lia.
Qed.

Lemma closures_below_fresh n q r ls :
  closures_below n ls → BindFn n q r ∉ ls.
Proof. intros Hb Hin. specialize (Hb n q r Hin). lia. Qed.

(** The arrow functions of a registry stay older than the counter of the
    browser: the counter never goes down, a client subscribes functions of
    its own, and [unsubscribe] and the writes add nothing. *)
Lemma closures_below_mono n m ls : n ≤ m → closures_below n ls → closures_below m ls.
Proof. intros Hle Hb k q r Hin. specialize (Hb k q r Hin). lia. Qed.

Lemma closures_below_subscribe_client n this f w :
  closures_below n (listeners this) →
  closures_below n (listeners (subscribe host this (UserFn f) w).1.2).
Proof.
  intros Hb. destruct (subscribe_spec host this (UserFn f) w) as (-> & _). simpl.
  intros m q r [[=]|Hin]%elem_of_Set_add. by apply (Hb m q r).
Qed.

Lemma closures_below_unsubscribe n (h : Unsubscribe) this :
  closures_below n (listeners this) →
  closures_below n (listeners (unsubscribe h this).2).
Proof.
  intros Hb m q r [Hin _]%unsubscribe_listeners. by apply (Hb m q r).
Qed.

Lemma closures_below_set n this key value w :
  closures_below n (listeners this) →
  closures_below n (listeners (set host this key value w).1.2).
Proof. intros Hb. by rewrite set_store. Qed.

Lemma closures_below_bind q this r w :
  closures_below (next_closure w) (listeners this) →
  closures_below (next_closure (bind host q this r w).2)
    (listeners (bind host q this r w).1.2).
Proof.
  intros Hb. destruct (bind_spec q this r w) as (-> & -> & _). simpl.
  by apply closures_below_Set_add.
Qed.

(** X7.  Unlike a function subscribed twice, two calls of [bind] with the same
    receiver and the same render function make two entries: each call
    allocates its own arrow function, so a later write renders twice. *)
Theorem bind_twice_registers_two q store r w :
  closures_below (next_closure w) (listeners store) →
  listeners (bind host q (bind host q store r w).1.2 r (bind host q store r w).2).1.2 =
    listeners store ++
    [BindFn (next_closure w) q r; BindFn (S (next_closure w)) q r] ∧
  closures_below
    (next_closure (bind host q (bind host q store r w).1.2 r (bind host q store r w).2).2)
    (listeners (bind host q (bind host q store r w).1.2 r (bind host q store r w).2).1.2) ∧
  ∀ key value w' b,
    (set host (bind host q (bind host q store r w).1.2 r (bind host q store r w).2).1.2
       key value w').1.1 = Ret b →
    ∃ evs,
      trace (set host
               (bind host q (bind host q store r w).1.2 r (bind host q store r w).2).1.2
               key value w').2 = trace w' ++ evs ∧
      Called (BindFn (next_closure w) q r) (<[key := value]> (state store)) ∈ evs ∧
      Called (BindFn (S (next_closure w)) q r) (<[key := value]> (state store)) ∈ evs.
Proof.
  intros Hb.
  destruct (bind_spec q store r w) as (Hs1 & Hn1 & _).
  remember (bind host q store r w).1.2 as st1 eqn:E1.
  remember (bind host q store r w).2 as w1 eqn:E1'. clear E1 E1'.
  destruct (bind_spec q st1 r w1) as (Hs2 & Hn2 & _).
  remember (bind host q st1 r w1).1.2 as st2 eqn:E2.
  remember (bind host q st1 r w1).2 as w2 eqn:E2'. clear E2 E2'.
  pose proof (closures_below_Set_add _ q r _ Hb) as Hb1.
  pose proof (closures_below_fresh _ q r _ Hb) as Hf0.
  rewrite (Set_add_new _ _ Hf0) in Hb1, Hs1.
  pose proof (closures_below_Set_add _ q r _ Hb1) as Hb2.
  pose proof (closures_below_fresh _ q r _ Hb1) as Hf1.
  rewrite (Set_add_new _ _ Hf1) in Hb2.
  assert (state st2 = state store) as Hst by (by subst st2 st1).
  assert (listeners st2 =
          listeners store ++ [BindFn (next_closure w) q r; BindFn (S (next_closure w)) q r])
    as Hls.
  { subst st2. simpl. rewrite Hn1. subst st1. simpl.
    rewrite (Set_add_new _ _ Hf1). by rewrite <-app_assoc. }
  split; [done|]. split.
  - rewrite Hn2, Hn1, Hls.
    by replace (listeners store ++
                [BindFn (next_closure w) q r; BindFn (S (next_closure w)) q r])
      with ((listeners store ++ [BindFn (next_closure w) q r]) ++
            [BindFn (S (next_closure w)) q r]) by (by rewrite <-app_assoc).
  - intros key value w' b Hret. eexists.
    split; [by apply (set_trace_complete host _ key value w' b)|].
    rewrite !elem_of_write_steps, Hls, Hst.
    split; (split; [|done]); apply elem_of_app; right; set_solver.
Qed.

(** X8.  Subscribing again after unsubscribing moves the listener to the end
    of the notification order. *)
Theorem resubscribe_goes_last this l w :
  listeners (subscribe host (unsubscribe (mkUnsubscribe l) this).2 l w).1.2 =
  filter (λ x, x ≠ l) (listeners this) ++ [l].
Proof.
  destruct (subscribe_spec host (unsubscribe (mkUnsubscribe l) this).2 l w) as (-> & _).
  simpl. apply Set_add_new. rewrite list_elem_of_filter. tauto.
Qed.

End MoreStore.

(** * More properties of the methods on the children of elements *)

Section MoreDom.

Context {Val Node : Type} (host : Host Val Node).

Implicit Types (w : World Val Node) (q : CatQuery) (el : nat).

(** ** Browsers that differ by the console *)

Lemma same_but_console_refl w : same_but_console w w.
Proof. by repeat split. Qed.

Lemma same_but_console_sym w1 w2 : same_but_console w1 w2 → same_but_console w2 w1.
Proof. intros (? & ? & ? & ? & ?). by repeat split. Qed.

Lemma same_but_console_trans w1 w2 w3 :
  same_but_console w1 w2 → same_but_console w2 w3 → same_but_console w1 w3.
Proof.
  intros (? & ? & ? & ? & ?) (? & ? & ? & ? & ?). unfold same_but_console.
  repeat split; congruence.
Qed.

Lemma onDebugging_same_but_console q msg w : same_but_console w (onDebugging q msg w).
Proof. unfold onDebugging. destruct (debugging q); by repeat split. Qed.

Lemma onDebugging_quiet q msg w : debugging q = false → onDebugging q msg w = w.
Proof. intros H. unfold onDebugging. by rewrite H. Qed.

Lemma childNodes_same_but_console w1 w2 el :
  same_but_console w1 w2 → childNodes w2 el = childNodes w1 el.
Proof. intros (_ & Hd & _). unfold childNodes. by rewrite Hd. Qed.

Lemma set_children_same_but_console el (nodes : list Node) w1 w2 :
  same_but_console w1 w2 →
  same_but_console (set_children el nodes w1) (set_children el nodes w2).
Proof.
  intros (? & ? & ? & ? & ?). unfold same_but_console, set_children. simpl.
  repeat split; congruence.
Qed.

(** ** Methods that run one action on every target *)

Lemma visits_targets m1 m2 q : (visits m1 m2 q).*2 = targets q.
Proof.
  unfold visits, targets. rewrite fmap_app, <-!list_fmap_compose.
  by rewrite !list_fmap_id.
Qed.

Lemma setter_run (f : nat → World Val Node → World Val Node) q m1 m2 w :
  (forEachNodeDo q (λ element (aw : unit * World Val Node), (tt, f element aw.2)) m2
     (forCreatedElementDo q (λ element (aw : unit * World Val Node), (tt, f element aw.2))
        m1 (tt, w))).2 = run f q (visits m1 m2 q) w.
Proof.
  unfold run, visits. rewrite foldl_app, !foldl_fmap.
  unfold forCreatedElementDo, forEachNodeDo.
  destruct (createdElement q) as [el|]; destruct (selectedNodes q) as [els|];
    cbn [option_list default foldl fst snd]; try done;
    by rewrite (foldl_unit_world f).
Qed.

Lemma run_cons (f : nat → World Val Node → World Val Node) q msg el steps w :
  run f q ((msg, el) :: steps) w = run f q steps (f el (onDebugging q msg w)).
Proof. done. Qed.

Lemma run_childNodes (f : nat → World Val Node → World Val Node)
    (g : list Node → list Node) q steps w el :
  (∀ el0 w0 el', childNodes (f el0 w0) el' =
     if decide (el0 = el') then g (childNodes w0 el') else childNodes w0 el') →
  childNodes (run f q steps w) el =
  Nat.iter (length (filter (λ x, x = el) steps.*2)) g (childNodes w el).
Proof.
  intros Hf. revert w. induction steps as [|[msg el0] steps IH]; intros w; [done|].
  rewrite run_cons, IH, Hf, childNodes_onDebugging. cbn [fmap list_fmap snd].
  destruct (decide (el0 = el)) as [->|Hne].
  - rewrite filter_cons_True by done. cbn [length]. by rewrite Nat.iter_succ_r.
  - by rewrite filter_cons_False.
Qed.

Lemma run_store_side (f : nat → World Val Node → World Val Node) q steps w :
  (∀ el0 w0, same_store_side w0 (f el0 w0)) →
  same_store_side w (run f q steps w).
Proof.
  intros Hf. revert w. induction steps as [|[msg el0] steps IH]; intros w.
  - apply same_store_side_refl.
  - rewrite run_cons. eapply same_store_side_trans; [|apply IH].
    eapply same_store_side_trans; [apply onDebugging_store_side|apply Hf].
Qed.

Lemma run_same_but_console (f : nat → World Val Node → World Val Node) q q' steps w1 w2 :
  (∀ el0 wa wb, same_but_console wa wb → same_but_console (f el0 wa) (f el0 wb)) →
  same_but_console w1 w2 →
  same_but_console (run f q steps w1) (run f q' steps w2).
Proof.
  intros Hf. revert w1 w2. induction steps as [|[msg el0] steps IH]; intros w1 w2 Hw.
  - done.
  - rewrite !run_cons. apply IH, Hf.
    eapply same_but_console_trans;
      [apply same_but_console_sym, onDebugging_same_but_console|].
    eapply same_but_console_trans; [exact Hw|apply onDebugging_same_but_console].
Qed.

Lemma filter_eq_absent el (els : list nat) : el ∉ els → filter (λ x, x = el) els = [].
Proof.
  induction els as [|x els IH]; [done|]. intros [Hx Hel]%not_elem_of_cons.
  rewrite filter_cons_False by (by intros ->). by apply IH.
Qed.

Lemma filter_eq_single el (els : list nat) :
  NoDup els → el ∈ els → filter (λ x, x = el) els = [el].
Proof.
  induction 1 as [|x els Hx Hnd IH]; [by intros ?%elem_of_nil|].
  intros [->|Hin]%elem_of_cons.
  - rewrite filter_cons_True by done. by rewrite filter_eq_absent.
  - rewrite filter_cons_False by (by intros ->). by apply IH.
Qed.

Lemma filter_eq_present el (els : list nat) :
  el ∈ els → ∃ n, length (filter (λ x, x = el) els) = S n.
Proof.
  induction els as [|x els IH]; [by intros ?%elem_of_nil|].
  destruct (decide (x = el)) as [->|Hne].
  - intros _. rewrite filter_cons_True by done. by eexists.
  - intros [->|Hin]%elem_of_cons; [done|]. rewrite filter_cons_False by done. by apply IH.
Qed.

Lemma iter_constant (c : list Node) n (x : list Node) : Nat.iter (S n) (λ _, c) x = c.
Proof. done. Qed.

(** An action that gives every target the same children [c]. *)
Lemma run_constant (f : nat → World Val Node → World Val Node) (c : list Node)
    q steps w el :
  (∀ el0 w0 el', childNodes (f el0 w0) el' =
     if decide (el0 = el') then c else childNodes w0 el') →
  childNodes (run f q steps w) el =
  if decide (el ∈ steps.*2) then c else childNodes w el.
Proof.
  intros Hf. rewrite (run_childNodes f (λ _, c)) by done. case_decide as Hin.
  - destruct (filter_eq_present el _ Hin) as [n ->]. done.
  - by rewrite filter_eq_absent.
Qed.

Lemma childNodes_set_children el (nodes : list Node) w el' :
  childNodes (set_children el nodes w) el' =
  if decide (el = el') then nodes else childNodes w el'.
Proof.
  unfold childNodes, set_children. simpl. case_decide as Heq.
  - subst. by rewrite lookup_insert_eq.
  - by rewrite lookup_insert_ne.
Qed.

Lemma set_children_store_side el (nodes : list Node) w :
  same_store_side w (set_children el nodes w).
Proof. by repeat split. Qed.

(** ** Methods that read every target *)

Lemma visit_nodes {A B} (upd : B → A → B) (h : World Val Node → nat → A)
    q msg els acc w0 w :
  (∀ w1 w2 el, same_but_console w1 w2 → h w2 el = h w1 el) →
  same_but_console w0 w →
  ∃ w', foldl (λ (aw : B * World Val Node) node,
                 (upd aw.1 (h (onDebugging q msg aw.2) node), onDebugging q msg aw.2))
              (acc, w) els = (foldl upd acc (h w0 <$> els), w') ∧
        same_but_console w0 w' ∧ (debugging q = false → w' = w).
Proof.
  intros Hh. revert acc w. induction els as [|el els IH]; intros acc w Hw.
  - exists w. split; [done|]. by split.
  - cbn [foldl fmap list_fmap fst snd].
    assert (same_but_console w0 (onDebugging q msg w)) as Hw1.
    { eapply same_but_console_trans; [exact Hw|apply onDebugging_same_but_console]. }
    destruct (IH (upd acc (h (onDebugging q msg w) el)) (onDebugging q msg w) Hw1)
      as (w' & Hfold & Hsame & Hquiet).
    exists w'. rewrite Hfold, (Hh w0 (onDebugging q msg w) el Hw1).
    split; [done|]. split; [done|].
    intros Hd. by rewrite (Hquiet Hd), onDebugging_quiet.
Qed.

Lemma visit_all {A B} (upd : B → A → B) (h : World Val Node → nat → A)
    q m1 m2 acc w :
  (∀ w1 w2 el, same_but_console w1 w2 → h w2 el = h w1 el) →
  ∃ w', forEachNodeDo q (λ element (aw : B * World Val Node),
                           (upd aw.1 (h aw.2 element), aw.2)) m2
          (forCreatedElementDo q (λ element (aw : B * World Val Node),
                                    (upd aw.1 (h aw.2 element), aw.2)) m1 (acc, w))
        = (foldl upd acc (h w <$> targets q), w') ∧
        same_but_console w w' ∧ (debugging q = false → w' = w).
Proof.
  intros Hh. unfold forCreatedElementDo, forEachNodeDo, targets.
  destruct (createdElement q) as [el|]; cbn [option_list fst snd].
  - assert (same_but_console w (onDebugging q m1 w)) as Hw1
      by apply onDebugging_same_but_console.
    destruct (selectedNodes q) as [els|]; cbn [default].
    + destruct (visit_nodes upd h q m2 els (upd acc (h (onDebugging q m1 w) el))
                  (onDebugging q m1 w) (onDebugging q m1 w) Hh
                  (same_but_console_refl _)) as (w' & Hfold & Hsame & Hquiet).
      exists w'. cbn [foldl fst snd] in *. rewrite Hfold.
      rewrite fmap_app. cbn [fmap list_fmap app foldl].
      rewrite (Hh w (onDebugging q m1 w) el Hw1).
      assert (h (onDebugging q m1 w) <$> els = h w <$> els) as ->.
      { apply list_fmap_ext. intros _ x _. by apply Hh. }
      split; [done|]. split; [by eapply same_but_console_trans|].
      intros Hd. by rewrite (Hquiet Hd), onDebugging_quiet.
    + exists (onDebugging q m1 w). rewrite (Hh w (onDebugging q m1 w) el Hw1).
      split; [done|]. split; [done|]. intros Hd. by apply onDebugging_quiet.
  - destruct (selectedNodes q) as [els|]; cbn [default app].
    + destruct (visit_nodes upd h q m2 els acc w w Hh (same_but_console_refl _))
        as (w' & Hfold & Hsame & Hquiet).
      exists w'. cbn [foldl fst snd] in *. by rewrite Hfold.
    + exists w. by repeat split.
Qed.

Lemma foldl_snoc_all {A} (acc : list A) (xs : list A) :
  foldl (λ l x, l ++ [x]) acc xs = acc ++ xs.
Proof.
  revert acc. induction xs as [|x xs IH]; intros acc; simpl.
  - by rewrite app_nil_r.
  - by rewrite IH, <-app_assoc.
Qed.

Lemma foldl_app_all {A} (acc : list A) (xss : list (list A)) :
  foldl (λ l xs, l ++ xs) acc xss = acc ++ concat xss.
Proof.
  revert acc. induction xss as [|xs xss IH]; intros acc; simpl.
  - by rewrite app_nil_r.
  - by rewrite IH, <-app_assoc.
Qed.

(** X9.  The getter branch of [html]: with no markup, or with the empty
    string, [html] returns the serialized content of the created element
    and of each selected node, in this order, and changes nothing but the
    console (nothing at all when debugging is off). *)
Theorem html_without_markup_only_reads q markup adding w :
  truthy markup = false →
  (html host q markup adding w).1 =
    Htmls ((λ el, innerHTML host (childNodes w el)) <$> targets q) ∧
  same_but_console w (html host q markup adding w).2 ∧
  (debugging q = false → (html host q markup adding w).2 = w).
Proof.
  intros Hm. unfold html. rewrite Hm. cbv zeta.
  destruct (visit_all (λ (l : list string) x, l ++ [x])
              (λ w0 el, innerHTML host (childNodes w0 el)) q
              "Getting created element html" "Getting selected nodes html." [] w)
    as (w' & Hfold & Hsame & Hquiet).
  { intros w1 w2 el Hw. by rewrite (childNodes_same_but_console w1 w2 el Hw). }
  cbn beta in Hfold. rewrite Hfold. cbn [fst snd].
  by rewrite foldl_snoc_all.
Qed.

(** ** The appending branch of [html] *)

Lemma appendChild_all_childNodes (nodes : list Node) el w el' :
  childNodes (foldl (λ w' node, appendChild el (cloneNode host node) w') w nodes) el' =
  if decide (el = el') then childNodes w el' ++ (cloneNode host <$> nodes)
  else childNodes w el'.
Proof.
  revert w. induction nodes as [|n nodes IH]; intros w.
  - simpl. case_decide; [by rewrite app_nil_r|done].
  - cbn [foldl]. rewrite IH. unfold appendChild.
    rewrite !childNodes_set_children. case_decide; [|done].
    subst el'. by rewrite fmap_cons, <-app_assoc.
Qed.

Lemma updateAction_adding_childNodes markup (nodes : list Node) el w el' :
  childNodes (updateAction host markup true nodes el w) el' =
  if decide (el = el') then childNodes w el' ++ (cloneNode host <$> nodes)
  else childNodes w el'.
Proof. unfold updateAction. apply appendChild_all_childNodes. Qed.

(** X10.  With [adding] set, [html] appends clones of the parsed nodes to the
    children of every target, whatever the target holds (there is no
    comparison with the current content), and leaves the other elements
    alone. *)
Theorem html_adding_appends q markup w el :
  markup ≠ EmptyString →
  NoDup (targets q) →
  el ∈ targets q →
  (html host q (Some markup) true w).1 = This q ∧
  childNodes (html host q (Some markup) true w).2 el =
    childNodes w el ++ (cloneNode host <$> parseFromString host markup) ∧
  (∀ el', el' ∉ targets q →
     childNodes (html host q (Some markup) true w).2 el' = childNodes w el').
Proof.
  intros Hm Hnd Hel. unfold html. rewrite (truthy_Some _ Hm). cbv zeta. cbn [fst snd default].
  rewrite (setter_run (updateAction host markup true (parseFromString host markup))).
  split; [done|]. split.
  - rewrite (run_childNodes _ (λ c, c ++ (cloneNode host <$> parseFromString host markup)))
      by (intros; apply updateAction_adding_childNodes).
    by rewrite visits_targets, (filter_eq_single el _ Hnd Hel).
  - intros el' Hel'.
    rewrite (run_childNodes _ (λ c, c ++ (cloneNode host <$> parseFromString host markup)))
      by (intros; apply updateAction_adding_childNodes).
    by rewrite visits_targets, (filter_eq_absent el' _ Hel').
Qed.

(** ** Debugging *)

Lemma updateAction_same_but_console markup adding (nodes : list Node) el wa wb :
  same_but_console wa wb →
  same_but_console (updateAction host markup adding nodes el wa)
                   (updateAction host markup adding nodes el wb).
Proof.
  intros Hw. unfold updateAction. destruct adding.
  - revert wa wb Hw. induction nodes as [|n nodes IH]; intros wa wb Hw; [done|].
    cbn [foldl]. apply IH. unfold appendChild.
    rewrite (childNodes_same_but_console wa wb el Hw).
    by apply set_children_same_but_console.
  - rewrite (childNodes_same_but_console wa wb el Hw).
    case_bool_decide; [by apply set_children_same_but_console|done].
Qed.

(** X11.  [debug()] switches the console messages and nothing else: the
    targets are the same, [debug().debug()] is the receiver as it was, and
    [html] reads the same contents and leaves the same DOM with debugging
    on as with debugging off. *)
Theorem debugging_changes_the_console_only q markup adding w :
  debug (debug q) = q ∧
  targets (debug q) = targets q ∧
  same_but_console (html host q markup adding w).2
                   (html host (debug q) markup adding w).2 ∧
  (∀ htmls, (html host q markup adding w).1 = Htmls htmls →
            (html host (debug q) markup adding w).1 = Htmls htmls).
Proof.
  split; [destruct q as [c n d]; unfold debug; simpl; by rewrite negb_involutive|].
  split; [done|].
  destruct (truthy markup) eqn:Hm.
  - split.
    + unfold html. rewrite Hm. cbv zeta. cbn [fst snd].
      rewrite !(setter_run (updateAction host (default EmptyString markup) adding
                              (parseFromString host (default EmptyString markup)))).
      apply run_same_but_console; [|apply same_but_console_refl].
      intros. by apply updateAction_same_but_console.
    + intros htmls. unfold html. rewrite Hm. done.
  - destruct (html_without_markup_only_reads q markup adding w Hm) as (H1 & H2 & _).
    destruct (html_without_markup_only_reads (debug q) markup adding w Hm) as (H1' & H2' & _).
    split.
    + eapply same_but_console_trans; [apply same_but_console_sym, H2|exact H2'].
    + intros htmls. rewrite H1, H1'. done.
Qed.

(** ** empty *)

(** X12.  [empty()] leaves every target without children and the other
    elements as they were, touches neither the storage nor the trace, and
    returns its receiver; [html()] then reads the serialization of no node
    for every target. *)
Theorem empty_clears_every_target q w :
  (empty q w).1 = q ∧
  (∀ el, el ∈ targets q → childNodes (empty q w).2 el = []) ∧
  (∀ el, el ∉ targets q → childNodes (empty q w).2 el = childNodes w el) ∧
  same_store_side w (empty q w).2 ∧
  (html host q None false (empty q w).2).1 =
    Htmls (replicate (length (targets q)) (innerHTML host [])).
Proof.
  split; [done|].
  assert ((empty q w).2 =
          run (λ el w0, replaceChildren el [] w0) q
              (visits "Empty created element." "Empty selected nodes." q) w) as Hrun.
  { unfold empty. cbv zeta. cbn [snd].
    apply (setter_run (λ el w0, replaceChildren el [] w0)). }
  assert (∀ el, childNodes (empty q w).2 el =
                if decide (el ∈ targets q) then [] else childNodes w el) as Hch.
  { intros el. rewrite Hrun, (run_constant _ []), visits_targets; [done|].
    intros. apply childNodes_set_children. }
  split; [intros el Hel; by rewrite Hch, decide_True|].
  split; [intros el Hel; by rewrite Hch, decide_False|].
  split.
  - rewrite Hrun. apply run_store_side. intros. apply set_children_store_side.
  - destruct (html_without_markup_only_reads q None false (empty q w).2 eq_refl)
      as (-> & _). f_equal.
    assert (∀ els, (∀ el, el ∈ els → el ∈ targets q) →
              (λ el, innerHTML host (childNodes (empty q w).2 el)) <$> els =
              replicate (length els) (innerHTML host [])) as Hall.
    { induction els as [|el els IH]; [done|]. intros Hin. cbn [fmap list_fmap length replicate].
      rewrite Hch, decide_True by (apply Hin; by left).
      f_equal. apply IH. intros el' Hel'. apply Hin. by right. }
    by apply Hall.
Qed.

(** ** text *)

Lemma visit_selected {A B} (upd : B → A → B) (h : World Val Node → nat → A) q msg acc w :
  (∀ w1 w2 el, same_but_console w1 w2 → h w2 el = h w1 el) →
  ∃ w', forEachNodeDo q (λ element (aw : B * World Val Node),
                           (upd aw.1 (h aw.2 element), aw.2)) msg (acc, w)
        = (foldl upd acc (h w <$> default [] (selectedNodes q)), w') ∧
        same_but_console w w' ∧ (debugging q = false → w' = w).
Proof.
  intros Hh. unfold forEachNodeDo. destruct (selectedNodes q) as [els|]; cbn [default].
  - destruct (visit_nodes upd h q msg els acc w w Hh (same_but_console_refl _))
      as (w' & Hfold & Hsame & Hquiet).
    exists w'. cbn [foldl fst snd] in *. by rewrite Hfold.
  - exists w. split; [done|]. split; [apply same_but_console_refl|done].
Qed.

Lemma run_constant_mutations (c : list Node) q steps w :
  mutations (run (λ el w0, set_children el c w0) q steps w) =
  mutations w ++ ((λ el, (el, c)) <$> steps.*2).
Proof.
  revert w. induction steps as [|[msg el0] steps IH]; intros w.
  - simpl. by rewrite app_nil_r.
  - rewrite run_cons, IH. cbn [fmap list_fmap snd].
    unfold set_children. cbn [mutations].
    by rewrite mutations_onDebugging, <-app_assoc.
Qed.

(** X14.  [text(t)], for a text that is not empty, makes one text node the only
    child of every target; [text()] then reads the text of that node once
    per selected node: the getter never reads the created element. *)
Theorem text_written_is_text_read (createTextNode : string → Node)
    (elementText : list Node → string) q data w :
  data ≠ EmptyString →
  (text createTextNode elementText q (Some data) w).1 = TextThis q ∧
  (∀ el, el ∈ targets q →
     childNodes (text createTextNode elementText q (Some data) w).2 el
       = [createTextNode data]) ∧
  (∀ el, el ∉ targets q →
     childNodes (text createTextNode elementText q (Some data) w).2 el = childNodes w el) ∧
  (text createTextNode elementText q None
     (text createTextNode elementText q (Some data) w).2).1 =
    Texts (replicate (length (default [] (selectedNodes q)))
             (elementText [createTextNode data])).
Proof.
  intros Hne.
  assert ((text createTextNode elementText q (Some data) w).2 =
          run (λ el w0, set_children el [createTextNode data] w0) q
              (visits "Setting text to created element." "Setting text to selected nodes." q)
              w) as Hrun.
  { unfold text. rewrite (truthy_Some _ Hne). cbv zeta. cbn [snd default].
    unfold set_textContent. rewrite decide_False by done.
    apply (setter_run (λ el w0, set_children el [createTextNode data] w0)). }
  assert (∀ el, childNodes (text createTextNode elementText q (Some data) w).2 el =
                if decide (el ∈ targets q) then [createTextNode data]
                else childNodes w el) as Hch.
  { intros el. rewrite Hrun, (run_constant _ [createTextNode data]), visits_targets; [done|].
    intros. apply childNodes_set_children. }
  split; [unfold text; by rewrite (truthy_Some _ Hne)|].
  split; [intros el Hel; by rewrite Hch, decide_True|].
  split; [intros el Hel; by rewrite Hch, decide_False|].
  set (w1 := (text createTextNode elementText q (Some data) w).2) in *.
  unfold text. cbn [truthy]. cbv zeta.
  destruct (visit_selected (λ (l : list string) x, l ++ [x])
              (λ w0 el, elementText (childNodes w0 el)) q
              "Getting selected nodes text." [] w1) as (w' & Hfold & _).
  { intros wa wb el Hw. by rewrite (childNodes_same_but_console wa wb el Hw). }
  cbn beta in Hfold. rewrite Hfold. cbn [fst]. rewrite foldl_snoc_all. f_equal.
  assert (∀ els, (∀ el, el ∈ els → el ∈ targets q) →
            (λ el, elementText (childNodes w1 el)) <$> els =
            replicate (length els) (elementText [createTextNode data])) as Hall.
  { induction els as [|el els IH]; [done|]. intros Hin.
    cbn [fmap list_fmap length replicate].
    rewrite Hch, decide_True by (apply Hin; by left).
    f_equal. apply IH. intros el' Hel'. apply Hin. by right. }
  apply Hall. intros el Hel. unfold targets. apply elem_of_app. by right.
Qed.

(** ** load *)

(** X15.  [load] has no guard and no comparison: when the text of the response
    arrives, every target gets the parsed fragment as its children, with
    one write per target in order, also for an empty text or a text the
    target already shows; when the fetch fails the browser is left as it
    was and the promise is rejected. *)
Theorem load_replaces_every_target (fetch_text : string → Exn + string)
    (parseFragment : string → list Node) q url w :
  (∀ e, fetch_text url = inl e →
     load fetch_text parseFragment q url w = (Thrown e, w)) ∧
  (∀ html, fetch_text url = inr html →
     (load fetch_text parseFragment q url w).1 = Ret q ∧
     (∀ el, el ∈ targets q →
        childNodes (load fetch_text parseFragment q url w).2 el = parseFragment html) ∧
     (∀ el, el ∉ targets q →
        childNodes (load fetch_text parseFragment q url w).2 el = childNodes w el) ∧
     mutations (load fetch_text parseFragment q url w).2 =
       mutations w ++ ((λ el, (el, parseFragment html)) <$> targets q)).
Proof.
  split; [intros e He; unfold load; by rewrite He|].
  intros html Hf.
  assert ((load fetch_text parseFragment q url w).2 =
          run (λ el w0, set_children el (parseFragment html) w0) q
              (visits "Loading html to created element." "Loading html to selected nodes." q)
              w) as Hrun.
  { unfold load. rewrite Hf. cbv zeta. cbn [snd].
    apply (setter_run (λ el w0, set_children el (parseFragment html) w0)). }
  assert (∀ el, childNodes (load fetch_text parseFragment q url w).2 el =
                if decide (el ∈ targets q) then parseFragment html
                else childNodes w el) as Hch.
  { intros el. rewrite Hrun, (run_constant _ (parseFragment html)), visits_targets; [done|].
    intros. apply childNodes_set_children. }
  split; [unfold load; by rewrite Hf|].
  split; [intros el Hel; by rewrite Hch, decide_True|].
  split; [intros el Hel; by rewrite Hch, decide_False|].
  by rewrite Hrun, run_constant_mutations, visits_targets.
Qed.

(** ** containsText and contents *)

Lemma foldl_concat {A B} (k : B → A → B) (acc : B) (xss : list (list A)) :
  foldl (λ b xs, foldl k b xs) acc xss = foldl k acc (concat xss).
Proof.
  revert acc. induction xss as [|xs xss IH]; intros acc; [done|].
  simpl. by rewrite IH, foldl_app.
Qed.

Lemma foldl_assign {A B} (k : A → B) (acc : B) (xs : list A) :
  foldl (λ _ x, k x) acc xs = match last xs with Some x => k x | None => acc end.
Proof.
  induction xs as [|x xs IH] using rev_ind; [done|].
  by rewrite foldl_snoc, last_snoc.
Qed.

(** X16.  [contents()] returns the child nodes of the created element, then
    those of each selected node.  [containsText(t)] does not tell whether
    some node contains [t]: its answer is the one for the last of these
    nodes alone ([false] when there is none). *)
Theorem containsText_answers_for_the_last_node (nodeText : Node → option string)
    q textContent w :
  (contents q w).1 = concat (childNodes w <$> targets q) ∧
  (containsText nodeText q textContent w).1 =
    match last (contents q w).1 with
    | Some node => (λ t, includes t textContent) <$> nodeText node
    | None => Some false
    end ∧
  same_but_console w (containsText nodeText q textContent w).2.
Proof.
  assert ((contents q w).1 = concat (childNodes w <$> targets q)) as Hc.
  { unfold contents. cbv zeta.
    destruct (visit_all (λ (l : list Node) xs, l ++ xs) (λ w0 el, childNodes w0 el) q
                "Getting created element contents." "Getting selected nodes contents."
                [] w) as (w' & Hfold & _).
    { intros wa wb el Hw. by apply childNodes_same_but_console. }
    cbn beta in Hfold. rewrite Hfold. cbn [fst]. by rewrite foldl_app_all. }
  split; [done|]. rewrite Hc.
  unfold containsText. cbv zeta.
  destruct (visit_all (λ (c : option bool) (xs : list Node),
                         foldl (λ _ node, (λ t, includes t textContent) <$> nodeText node)
                               c xs)
              (λ w0 el, childNodes w0 el) q
              "Cheking if created element contains text."
              "Cheking if selected nodes contains text." (Some false) w)
    as (w' & Hfold & Hsame & _).
  { intros wa wb el Hw. by apply childNodes_same_but_console. }
  cbn beta in Hfold. rewrite Hfold. cbn [fst snd]. split; [|done].
  by rewrite (foldl_concat (λ _ node, (λ t, includes t textContent) <$> nodeText node)),
     (foldl_assign (λ node, (λ t, includes t textContent) <$> nodeText node)).
Qed.

(** ** A query without targets *)

(** X17.  On a query that selected nothing and created nothing ([cq()] with no
    selector or the empty one, or a selector that matches no element),
    [html], [empty] and [text] leave the browser exactly as it is, and the
    getters return no entry. *)
Theorem no_target_no_effect (createTextNode : string → Node)
    (elementText : list Node → string) q markup adding newText w :
  targets q = [] →
  (html host q markup adding w).2 = w ∧
  (empty q w).2 = w ∧
  (text createTextNode elementText q newText w).2 = w ∧
  (html host q None adding w).1 = Htmls [] ∧
  (contents q w).1 = [].
Proof.
  unfold targets. intros [Hc Hs]%app_eq_nil.
  destruct q as [[c|] sel d]; simpl in *; [done|].
  assert (sel = None ∨ sel = Some []) as Hsel.
  { destruct sel as [[|x xs]|]; simpl in *; [by right|done|by left]. }
  unfold html, empty, text, contents, forCreatedElementDo, forEachNodeDo.
  destruct Hsel as [-> | ->]; simpl;
    destruct (truthy markup); destruct (truthy newText); done.
Qed.

End MoreDom.

(** * [get] *)

Section MoreGet.

Context {Response : Type}.

(** X18.  [get] calls [success] with every response [fetch] is fulfilled with,
    also one that is not [ok]: a response that is not [ok] makes it call
    [error] first and then [success] all the same, unless [error] throws.
    A rejected [fetch] calls neither. *)
Theorem get_calls_success_whatever_the_status (fetch : string → Exn + Response)
    (ok : Response → bool) this url (success : Response → option Exn)
    (error : option Exn) :
  (∀ e, fetch url = inl e → get fetch ok this url success error = (Thrown e, [])) ∧
  (∀ resp, fetch url = inr resp →
     (ErrorCall ∈ (get fetch ok this url success error).2 ↔ ok resp = false) ∧
     (SuccessCall resp ∈ (get fetch ok this url success error).2 ↔
        ok resp = true ∨ error = None) ∧
     (ok resp = false → error = None →
        (get fetch ok this url success error).2 = [ErrorCall; SuccessCall resp]) ∧
     ((get fetch ok this url success error).1 = Ret this ↔
        (ok resp = true ∨ error = None) ∧ success resp = None)).
Proof.
  split; [intros e He; unfold get; by rewrite He|].
  intros resp Hf. unfold get. rewrite Hf.
  destruct (ok resp); destruct error as [e|]; destruct (success resp) as [e'|]; simpl;
    rewrite ?elem_of_cons, ?elem_of_nil;
    (split; [|split; [|split]]); intuition (try discriminate; try congruence).
Qed.

End MoreGet.

(** * [includes] and [initWebUI] *)

Lemma append_cons c (t b : string) : String c t +:+ b = String c (t +:+ b).
Proof. reflexivity. Qed.

Lemma append_nil (b : string) : EmptyString +:+ b = b.
Proof. reflexivity. Qed.

Lemma prefix_append (t s : string) :
  String.prefix t s = true ↔ ∃ b, s = t +:+ b.
Proof.
  revert s. induction t as [|c t IH]; intros s.
  - split; [intros _; by exists s|]. by destruct s.
  - destruct s as [|c' s]; simpl.
    + split; [done|]. intros [b Hb]. by rewrite append_cons in Hb.
    + destruct (ascii_dec c c') as [->|Hne].
      * rewrite IH. split; [intros [b ->]; by exists b|].
        intros [b Hb]. exists b. rewrite append_cons in Hb. congruence.
      * split; [done|]. intros [b Hb]. rewrite append_cons in Hb. congruence.
Qed.

Lemma includes_unfold (s t : string) :
  includes s t =
  if String.prefix t s then true
  else match s with
       | EmptyString => false
       | String _ rest => includes rest t
       end.
Proof. by destruct s. Qed.

(** [includes] is the substring test. *)
Lemma includes_spec (s t : string) :
  includes s t = true ↔ ∃ a b, s = a +:+ t +:+ b.
Proof.
  induction s as [|c s IH].
  - rewrite includes_unfold. destruct (String.prefix t EmptyString) eqn:Hp.
    + split; [|done]. intros _. apply prefix_append in Hp as [b Hb].
      by exists EmptyString, b.
    + split; [done|]. intros ([|c' a] & b & Hb); [|by rewrite append_cons in Hb].
      rewrite append_nil in Hb.
      assert (String.prefix t EmptyString = true) as Hp' by (apply prefix_append; eauto).
      congruence.
  - rewrite includes_unfold. destruct (String.prefix t (String c s)) eqn:Hp.
    + split; [|done]. intros _. apply prefix_append in Hp as [b Hb].
      by exists EmptyString, b.
    + rewrite IH. split.
      * intros (a & b & ->). by exists (String c a), b.
      * intros ([|c' a] & b & Hb).
        -- rewrite append_nil in Hb.
           assert (String.prefix t (String c s) = true) as Hp'
             by (apply prefix_append; eauto).
           congruence.
        -- rewrite append_cons in Hb. injection Hb as _ ->. eauto.
Qed.

Section MoreWebUI.

Context {Val Node : Type}.

Lemma has_webui_snoc (scripts : list Script) cb :
  has_webui (scripts ++ [mkScript "webui.js" cb]) = true.
Proof.
  unfold has_webui. apply bool_decide_eq_true_2, Exists_app. right. by left.
Qed.

(** X19.  [initWebUI] adds the script element once: after a first call, a
    second call finds the element, adds nothing (so its callback is
    attached to no script), and returns a promise that is already
    fulfilled, whether or not the script has loaded. *)
Theorem initWebUI_adds_the_script_once this cb1 this' cb2 (scripts : list Script)
    (w : World Val Node) :
  has_webui (initWebUI this cb1 scripts w).1.2 = true ∧
  (initWebUI this' cb2 (initWebUI this cb1 scripts w).1.2
     (initWebUI this cb1 scripts w).2).1.1 = Fulfilled this' ∧
  (initWebUI this' cb2 (initWebUI this cb1 scripts w).1.2
     (initWebUI this cb1 scripts w).2).1.2 = (initWebUI this cb1 scripts w).1.2 ∧
  (has_webui scripts = false →
     (initWebUI this cb1 scripts w).1.1 = Pending (length scripts) ∧
     (initWebUI this cb1 scripts w).1.2 = scripts ++ [mkScript "webui.js" (Some cb1)] ∧
     (initWebUI this cb1 scripts w).2 = w) ∧
  (has_webui scripts = true →
     (initWebUI this cb1 scripts w).1.1 = Fulfilled this ∧
     (initWebUI this cb1 scripts w).1.2 = scripts).
Proof.
  assert (has_webui (initWebUI this cb1 scripts w).1.2 = true) as H1.
  { unfold initWebUI. destruct (has_webui scripts) eqn:Hs; simpl; [done|].
    apply has_webui_snoc. }
  split; [done|].
  split; [unfold initWebUI at 1; by rewrite H1|].
  split; [unfold initWebUI at 1; by rewrite H1|].
  split; intros Hs; unfold initWebUI; by rewrite Hs.
Qed.

End MoreWebUI.

(** * The further properties on the counter page *)

Lemma no_slot_never_saves_witness :
  truthy (storageKey Demo.store_empty) = false ∧
  (assign_all (Demo.host 0) Demo.store_empty DemoMore.writes Demo.w0).1.1 = Ret true ∧
  localStorage (assign_all (Demo.host 0) Demo.store_empty DemoMore.writes Demo.w0).2 = ∅.
Proof.
  destruct (no_slot_never_saves (Demo.host 0) Demo.store_empty DemoMore.writes Demo.w0
              eq_refl) as [Hl _].
  split; [reflexivity|]. split; [vm_compute; reflexivity|exact Hl].
Defined.

Lemma each_write_saves_and_notifies_witness :
  (assign_all (Demo.host 100) Demo.store_k DemoMore.writes Demo.w0).1.1 = Ret true ∧
  ∃ evs, trace (assign_all (Demo.host 100) Demo.store_k DemoMore.writes Demo.w0).2
           = trace Demo.w0 ++ evs ∧
    length (filter is_Saved evs) = 2 ∧
    ∀ l, l ∈ listeners Demo.store_k → length (calls_of l evs) = 2.
Proof.
  assert ((assign_all (Demo.host 100) Demo.store_k DemoMore.writes Demo.w0).1.1 = Ret true)
    as Hret by (vm_compute; reflexivity).
  assert (NoDup (listeners Demo.store_k)) as Hnd.
  { apply (bool_decide_unpack _). vm_compute. exact I. }
  split; [exact Hret|].
  exact (each_write_saves_and_notifies (Demo.host 100) Demo.store_k DemoMore.writes Demo.w0
           true eq_refl Hnd Hret).
Defined.

Lemma failed_save_leaves_stale_snapshot_witness :
  (persist (Demo.host 0) (written Demo.store_one "count" 1%Z) DemoMore.w_saved).1
    = Thrown Demo.quota_exceeded ∧
  new_CatStore (Demo.host 0) (Demo.counter 2) (Some "k")
    (set (Demo.host 0) Demo.store_one "count" 1%Z DemoMore.w_saved).2
    = Ret (mkCatStore [] (Demo.counter 0) (Some "k")).
Proof.
  assert ((persist (Demo.host 0) (written Demo.store_one "count" 1%Z) DemoMore.w_saved).1
            = Thrown Demo.quota_exceeded) as Hp by (vm_compute; reflexivity).
  split; [exact Hp|].
  rewrite (failed_save_leaves_stale_snapshot (Demo.host 0) Demo.store_one "count" 1%Z
             DemoMore.w_saved Demo.quota_exceeded (Demo.counter 2) (Some "k") Hp).
  vm_compute. reflexivity.
Defined.

Lemma constructor_restores_or_throws_witness :
  new_CatStore (Demo.host 0) (Demo.counter 0) (Some "k") DemoMore.w_malformed
    = Thrown (Error "SyntaxError") ∧
  new_CatStore (Demo.host 0) (Demo.counter 1) (Some "k") Demo.w0
    = Ret (mkCatStore [] (Demo.counter 1) (Some "k")).
Proof.
  assert ("k" ≠ EmptyString) as Hk by discriminate.
  assert ("oops" ≠ EmptyString) as Ht by discriminate.
  split.
  - destruct (constructor_restores_or_throws (Demo.host 0) (Demo.counter 0) "k"
                DemoMore.w_malformed Hk) as (Hthrow & _).
    exact (Hthrow "oops" (Error "SyntaxError") eq_refl Ht eq_refl).
  - destruct (constructor_restores_or_throws (Demo.host 0) (Demo.counter 1) "k"
                Demo.w0 Hk) as (_ & Hinit & _).
    apply Hinit. left. reflexivity.
Defined.

Lemma throwing_replay_stays_registered_witness :
  throws (Demo.host 100) (UserFn 2) (state Demo.store_empty) = Some (Error "listener 2") ∧
  (subscribe (Demo.host 100) Demo.store_empty (UserFn 2) Demo.w0).1.1
    = Thrown (Error "listener 2") ∧
  UserFn 2 ∈ listeners (subscribe (Demo.host 100) Demo.store_empty (UserFn 2) Demo.w0).1.2.
Proof.
  destruct (throwing_replay_stays_registered (Demo.host 100) Demo.store_empty (UserFn 2)
              Demo.w0 (Error "listener 2") eq_refl) as (Hout & Hin & _).
  split; [reflexivity|]. split; [exact Hout|exact Hin].
Defined.

Lemma reachable_registry_has_no_duplicate_witness :
  reachable (Demo.host 100)
    (subscribe (Demo.host 100) (mkCatStore [] (Demo.counter 0) (Some "k")) (UserFn 0)
       Demo.w0).1.2 ∧
  NoDup (listeners
           (subscribe (Demo.host 100) (mkCatStore [] (Demo.counter 0) (Some "k")) (UserFn 0)
              Demo.w0).1.2).
Proof.
  assert (reachable (Demo.host 100)
            (subscribe (Demo.host 100) (mkCatStore [] (Demo.counter 0) (Some "k"))
               (UserFn 0) Demo.w0).1.2) as Hr.
  { apply reachable_subscribe.
    apply (reachable_new (Demo.host 100) (Demo.counter 0) (Some "k") Demo.w0).
    vm_compute. reflexivity. }
  split; [exact Hr|].
  exact (reachable_registry_has_no_duplicate (Demo.host 100) _ Hr).
Defined.

Lemma bind_twice_registers_two_witness :
  closures_below (next_closure (Demo.page "x")) (listeners Demo.store_empty) ∧
  listeners (bind (Demo.host 0) Demo.q7
               (bind (Demo.host 0) Demo.q7 Demo.store_empty 0 (Demo.page "x")).1.2 0
               (bind (Demo.host 0) Demo.q7 Demo.store_empty 0 (Demo.page "x")).2).1.2 =
    [BindFn 0 Demo.q7 0; BindFn 1 Demo.q7 0].
Proof.
  assert (closures_below (next_closure (Demo.page "x")) (listeners Demo.store_empty)) as Hb.
  { intros m q r Hin. simpl in Hin. by apply elem_of_nil in Hin. }
  split; [exact Hb|].
  exact (proj1 (bind_twice_registers_two (Demo.host 0) Demo.q7 Demo.store_empty 0
                  (Demo.page "x") Hb)).
Defined.

Lemma html_without_markup_only_reads_witness :
  (html (Demo.host 0) Demo.q7 None false (Demo.page "x")).1 = Htmls ["x"] ∧
  (html (Demo.host 0) Demo.q7 (Some EmptyString) false (Demo.page "x")).2 = Demo.page "x".
Proof.
  split.
  - destruct (html_without_markup_only_reads (Demo.host 0) Demo.q7 None false
                (Demo.page "x") eq_refl) as (-> & _).
    vm_compute. reflexivity.
  - destruct (html_without_markup_only_reads (Demo.host 0) Demo.q7 (Some EmptyString) false
                (Demo.page "x") eq_refl) as (_ & _ & Hq).
    exact (Hq eq_refl).
Defined.

Lemma html_adding_appends_witness :
  7 ∈ targets Demo.q7 ∧
  childNodes (html (Demo.host 0) Demo.q7 (Some "one") true (Demo.page "x")).2 7
    = ["x"; "one"] ∧
  childNodes (html (Demo.host 0) Demo.q7 (Some "x") true (Demo.page "x")).2 7
    = ["x"; "x"].
Proof.
  assert (7 ∈ targets Demo.q7) as Hel by (vm_compute; left).
  assert (NoDup (targets Demo.q7)) as Hnd.
  { apply (bool_decide_unpack _). vm_compute. exact I. }
  assert ("one" ≠ EmptyString) as H1 by discriminate.
  assert ("x" ≠ EmptyString) as H2 by discriminate.
  split; [exact Hel|]. split.
  - destruct (html_adding_appends (Demo.host 0) Demo.q7 "one" (Demo.page "x") 7 H1 Hnd Hel)
      as (_ & -> & _). vm_compute. reflexivity.
  - destruct (html_adding_appends (Demo.host 0) Demo.q7 "x" (Demo.page "x") 7 H2 Hnd Hel)
      as (_ & -> & _). vm_compute. reflexivity.
Defined.

Lemma text_written_is_text_read_witness :
  (text DemoMore.createTextNode DemoMore.elementText Demo.q7 None
     (text DemoMore.createTextNode DemoMore.elementText Demo.q7 (Some "meow")
        (Demo.page "x")).2).1 = Texts ["meow"].
Proof.
  assert ("meow" ≠ EmptyString) as Hne by discriminate.
  destruct (text_written_is_text_read DemoMore.createTextNode DemoMore.elementText Demo.q7
              "meow" (Demo.page "x") Hne) as (_ & _ & _ & ->).
  vm_compute. reflexivity.
Defined.

Lemma no_target_no_effect_witness :
  cq (λ _ _, inr [7]) None (Demo.page "x") = Ret DemoMore.q_none ∧
  targets DemoMore.q_none = [] ∧
  (html (Demo.host 0) DemoMore.q_none (Some "one") false (Demo.page "x")).2 = Demo.page "x" ∧
  (empty DemoMore.q_none (Demo.page "x")).2 = Demo.page "x".
Proof.
  destruct (no_target_no_effect (Demo.host 0) DemoMore.createTextNode DemoMore.elementText
              DemoMore.q_none (Some "one") false None (Demo.page "x") eq_refl)
    as (Hh & He & _).
  split; [reflexivity|]. split; [reflexivity|]. split; [exact Hh|exact He].
Defined.

(** [containsText("cat")] on a target whose nodes are [cat] and [dog]
    answers for [dog]. *)
Example containsText_misses_an_earlier_node :
  (containsText DemoMore.nodeText Demo.q7 "cat" DemoMore.two_nodes).1 = Some false ∧
  (containsText DemoMore.nodeText Demo.q7 "dog" DemoMore.two_nodes).1 = Some true ∧
  includes "cat" "cat" = true.
Proof. repeat split; vm_compute; reflexivity. Qed.

(** [get] on a response that is not [ok]. *)
Example get_not_ok_calls_both :
  get (λ _ : string, inr 404) (λ status, bool_decide (status = 200)) DemoMore.q_none
      "about:blank" (λ _, None) None
  = (Ret DemoMore.q_none, [ErrorCall; SuccessCall 404]).
Proof. vm_compute. reflexivity. Qed.
